(** * blkcache/microbench_hashmap.cc: the hash map micro benchmark

    A shallow embedding of the benchmark driver [MicroBenchmark], of the
    baseline [SimpleHashMap] (a [std::unordered_map] behind one
    reader-writer lock) and of the adapter [ScalableHashMap], followed by
    the properties of the specification that concern them.

    Conventions.
    - An [int] key is a [Z]; the conversions the driver performs
      ([long] + [size_t], then to [int]) are written out in [Module Int].
    - [SimpleHashMap]'s methods hold [rwlock_] for their whole body and
      [ScalableHashMap::Lookup] holds the shard's lock around [Find], so
      a method is embedded as a function from the state before the call
      to the state after it and the returned value, and a run of several
      threads as a sequence of whole calls.
    - An output parameter [Value* val] is the value the pointer points at:
      a method that takes one also returns the pointee after the call. *)

From stdpp Require Import base list strings.
From Stdlib Require Import ZArith Lia Ascii.

Local Open Scope Z_scope.

(** ** Machine integers *)

Module Int.

(** [uint64_t], [size_t] and [unsigned long]: arithmetic modulo 2^64. *)
Definition wrap64 (z : Z) : Z := z mod 2 ^ 64.

(** Conversion to a 32-bit [int]: the value modulo 2^32 that lies in
    [-2^31, 2^31). *)
Definition to_int (z : Z) : Z := (z + 2 ^ 31) mod 2 ^ 32 - 2 ^ 31.

(** [random()] returns a [long] between 0 and 2^31 - 1. *)
Definition random_range (r : Z) : Prop := 0 <= r < 2 ^ 31.

End Int.

(** ** The [HashMap] interface (lines 29-38) *)

Class HashMap (Key Value M : Type) := {
  Insert : M -> Key -> Value -> M * bool;
  Erase : M -> Key -> M * bool;
  (** [Lookup m key val]: the map after the call, the contents of [*val]
      after the call, the returned flag. *)
  Lookup : M -> Key -> Value -> M * Value * bool
}.

(** A call of one of the three methods on a [HashMap<int, string>], the
    state it leaves and the flag it returns. *)
Inductive call :=
| CallInsert (key : Z) (val : string)
| CallErase (key : Z)
| CallLookup (key : Z) (val : string).

Definition do_call {M : Type} `{HashMap Z string M} (m : M) (c : call) : M * bool :=
  match c with
  | CallInsert key val => Insert m key val
  | CallErase key => Erase m key
  | CallLookup key val => let '(m, _, found) := Lookup m key val in (m, found)
  end.

(** The state after a sequence of calls, one after the other. *)
Definition do_calls {M : Type} `{HashMap Z string M} (m : M) (cs : list call) : M :=
  foldl (λ m c, (do_call m c).1) m cs.

(** The flags the calls of a sequence return, in order. *)
Fixpoint returns {M : Type} `{HashMap Z string M} (m : M) (cs : list call) : list bool :=
  match cs with
  | [] => []
  | c :: cs' => (do_call m c).2 :: returns (do_call m c).1 cs'
  end.

(** The key a call works on. *)
Definition key_of (c : call) : Z :=
  match c with
  | CallInsert key _ => key
  | CallErase key => key
  | CallLookup key _ => key
  end.

Definition is_insert (c : call) : bool :=
  match c with CallInsert _ _ => true | _ => false end.

Definition is_erase (c : call) : bool :=
  match c with CallErase _ => true | _ => false end.

Definition is_lookup (c : call) : bool :=
  match c with CallLookup _ _ => true | _ => false end.

(** The number of calls of a kind in a sequence. *)
Fixpoint count_calls (p : call -> bool) (cs : list call) : Z :=
  match cs with
  | [] => 0
  | c :: cs' => (if p c then 1 else 0) + count_calls p cs'
  end.

(** ** [std::unordered_map<int, string>]

    The container of the C++ standard library, as the sequence of its
    elements. An iterator is a position in the sequence and [end()] is the
    position after the last element. *)

Module unordered_map.

Abbreviation t := (list (Z * string)).

Definition empty : t := [].

Definition end_ (m : t) : nat := length m.

Definition size (m : t) : nat := length m.

(** [find(key)]: the first element whose key equals [key], or [end()]. *)
Fixpoint find (m : t) (key : Z) : nat :=
  match m with
  | [] => O
  | (k, _) :: m' => if decide (k = key) then O else S (find m' key)
  end.

(** [insert(value)]: adds the pair unless an element with an equal key
    exists; returns the position of the element with that key and
    whether the insertion took place. *)
Definition insert (m : t) (kv : Z * string) : t * (nat * bool) :=
  let it := find m kv.1 in
  if decide (it = end_ m) then (m ++ [kv], (length m, true))
  else (m, (it, false)).

(** [erase(it)]: removes the element at the iterator. *)
Definition erase (m : t) (it : nat) : t := delete it m.

(** The keys held, one per element. *)
Definition keys (m : t) : list Z := m.*1.

(** The value stored under a key, if any. *)
Definition at_ (m : t) (key : Z) : option string :=
  snd <$> m !! find m key.

(** At most one element per key: two elements with the same key are
    the same element. *)
Definition unique (m : t) : Prop :=
  forall i j key v w,
    m !! i = Some (key, v) -> m !! j = Some (key, w) -> i = j.

End unordered_map.

(** ** [SimpleHashMap] (lines 148-176) *)

Module SimpleHashMap.

(** The member [map_]; [rwlock_] is held during each method. *)
Abbreviation t := unordered_map.t.

Definition Insert (map_ : t) (key : Z) (val : string) : t * bool :=
  let '(map_, _) := unordered_map.insert map_ (key, val) in
  (map_, true).

Definition Erase (map_ : t) (key : Z) : t * bool :=
  let it := unordered_map.find map_ key in
  if decide (it = unordered_map.end_ map_) then (map_, false)
  else (unordered_map.erase map_ it, true).

Definition Lookup (map_ : t) (key : Z) (val : string) : t * string * bool :=
  (map_, val,
   bool_decide (unordered_map.find map_ key ≠ unordered_map.end_ map_)).

End SimpleHashMap.

#[export] Instance SimpleHashMap_HashMap : HashMap Z string SimpleHashMap.t := {|
  Insert := SimpleHashMap.Insert;
  Erase := SimpleHashMap.Erase;
  Lookup := SimpleHashMap.Lookup
|}.

(** ** [ScalableHashMap] (lines 181-225)

    The adapter over [ScalableHashTable<Node, Hash, Equal>]. The table
    template is declared in blkcache/scalable_hash_table.h; its three
    operations are the section's variables. A [T*] parameter of the table
    is [None] for [nullptr] and [Some] of the pointee otherwise, and the
    operation returns the pointee after the call. *)

Module ScalableHashMap.

Record Node := { key_ : Z; val_ : string }.

(** [std::hash<uint64_t>()(node.key_)]: the key, converted to
    [uint64_t], through the standard library's hash. *)
Definition Hash (std_hash : Z -> Z) (node : Node) : Z :=
  std_hash (Int.wrap64 (key_ node)).

Definition Equal (lhs rhs : Node) : bool :=
  bool_decide (key_ lhs = key_ rhs).

Section adapter.
Context {T : Type}.
Variable impl_Insert : T -> Node -> T * bool.
Variable impl_Erase : T -> Node -> option Node -> T * option Node * bool.
Variable impl_Find : T -> Node -> option Node -> T * option Node * bool.

Definition Insert (impl_ : T) (key : Z) (val : string) : T * bool :=
  let n := {| key_ := key; val_ := val |} in
  impl_Insert impl_ n.

Definition Erase (impl_ : T) (key : Z) : T * bool :=
  let n := {| key_ := key; val_ := "" |} in
  let '(impl_, _, erased) := impl_Erase impl_ n None in
  (impl_, erased).

(** The shard's lock is taken for reading around the call of [Find];
    the output pointer handed to [Find] is [nullptr], not [val]. *)
Definition Lookup (impl_ : T) (key : Z) (val : string) : T * string * bool :=
  let n := {| key_ := key; val_ := "" |} in
  let '(impl_, _, found) := impl_Find impl_ n None in
  (impl_, val, found).

Definition as_HashMap : HashMap Z string T :=
  Build_HashMap Z string T Insert Erase Lookup.

(** What the adapter relies on from [Find], which runs under the read
    lock: on a well-formed table it changes nothing and reports
    whether an element equal to the probe is held. *)
Record FindContract (wf : T -> Prop) (holds : T -> Node -> Prop) : Prop := {
  find_readonly : forall t n ret, wf t -> (impl_Find t n ret).1.1 = t;
  find_found : forall t n ret, wf t ->
    (impl_Find t n ret).2 = true <-> exists e, holds t e /\ Equal n e = true
}.

End adapter.

End ScalableHashMap.

(** ** [ScalableHashTable]: the sharded table behind the adapter *)

Module ScalableHashTable.

Section table.
Context {T : Type}.
Variable Hash : T -> Z.
Variable Equal : T -> T -> bool.
(** Modelled from the spec: the slot of a key is a function of its hash
    and of the number of slots, left open by the spec. *)
Variable slot_of : Z -> nat -> nat.

(** Modelled from the spec: blkcache/scalable_hash_table.h, which
    declares the table, is not among the sources. An Entry is an
    element (its key and value) with the cached hash of the key. *)
Record Entry := { e_elem : T; e_hash : Z }.

(** Modelled from the spec: a bucket chain is a sequence of Entries
    that share a slot. *)
Definition Chain : Type := list Entry.

(** Modelled from the spec: a Shard is an array of bucket-chain slots
    with a live-entry counter (its lock is held by the caller). *)
Record Shard := { slots : list Chain; live : nat }.

(** Modelled from the spec: the Table is an array of Shards. *)
Record Table := { shards : list Shard }.

(** Modelled from the spec: the shard of a key is its hash modulo the
    shard count. *)
Definition shard_of (tab : Table) (h : Z) : nat :=
  Z.to_nat (h mod Z.of_nat (length (shards tab))).

(** Modelled from the spec: the chain a key is looked for in, the one
    at the key's slot of the key's shard. *)
Definition target_chain (tab : Table) (h : Z) : Chain :=
  match shards tab !! shard_of tab h with
  | None => []
  | Some sh => default [] (slots sh !! slot_of h (length (slots sh)))
  end.

(** Modelled from the spec: chain traversal is a linear scan that
    compares the cached hash first and the keys next. *)
Fixpoint chain_find (h : Z) (t : T) (c : Chain) : option Entry :=
  match c with
  | [] => None
  | e :: c' =>
      if bool_decide (e_hash e = h) && Equal t (e_elem e) then Some e
      else chain_find h t c'
  end.

(** Modelled from the spec: [Find] walks the target chain, copies the
    element out on a match when there is somewhere to copy it to, and
    returns whether the key was found; the table is only read. *)
Definition Find (tab : Table) (t : T) (ret : option T)
    : Table * option T * bool :=
  match chain_find (Hash t) t (target_chain tab (Hash t)) with
  | Some e => (tab, (λ _, e_elem e) <$> ret, true)
  | None => (tab, ret, false)
  end.

(** Modelled from the spec: the elements held by the table are those of
    the Entries reachable from the chains of its shards. *)
Definition holds (tab : Table) (t : T) : Prop :=
  exists sh c e, sh ∈ shards tab /\ c ∈ slots sh /\ e ∈ c /\ e_elem e = t.

(** Modelled from the spec: deterministic placement. Every Entry
    carries the hash of its element and sits in the chain that its
    hash selects. *)
Definition placed (tab : Table) : Prop :=
  forall sh c e, sh ∈ shards tab -> c ∈ slots sh -> e ∈ c ->
    e_hash e = Hash (e_elem e) /\ e ∈ target_chain tab (e_hash e).

End table.

End ScalableHashTable.

(** A small instance of the table for [ScalableHashMap]'s nodes: the
    identity as the standard library's hash (as in libstdc++), two shards
    of two slots, keys 4 and 7. *)
Module sample.

Definition std_hash (z : Z) : Z := z.

Definition slot_of (h : Z) (n : nat) : nat := Z.to_nat ((h `div` 2) mod Z.of_nat n).

Definition entry (key : Z) (val : string) : ScalableHashTable.Entry :=
  let n := {| ScalableHashMap.key_ := key; ScalableHashMap.val_ := val |} in
  {| ScalableHashTable.e_elem := n;
     ScalableHashTable.e_hash := ScalableHashMap.Hash std_hash n |}.

Definition table : ScalableHashTable.Table :=
  {| ScalableHashTable.shards :=
       [ {| ScalableHashTable.slots := [[entry 4 "d"]; []];
            ScalableHashTable.live := 1 |};
         {| ScalableHashTable.slots := [[]; [entry 7 "stored"]];
            ScalableHashTable.live := 1 |} ] |}.

Definition Find :=
  ScalableHashTable.Find (ScalableHashMap.Hash std_hash) ScalableHashMap.Equal slot_of.

End sample.

(** ** The benchmark driver [MicroBenchmark<int, string>] (lines 20-143) *)

(** [string(n, c)]. *)
Fixpoint string_fill (n : nat) (c : Ascii.ascii) : string :=
  match n with
  | O => EmptyString
  | S n' => String c (string_fill n' c)
  end.

(** [NowInMillSec] on the [timeval] that [gettimeofday] filled in. *)
Definition NowInMillSec (tv : Z * Z) : Z :=
  Int.wrap64 (tv.1 * 1000 + Z.quot tv.2 1000).

Module MicroBenchmark.

Definition max_key_ : Z := 1024 * 1024.

(** The value every insertion stores, [string(1000, 'a')]. *)
Definition val_ : string := string_fill 1000 "a"%char.

(** [random() + max_key_] where an [int] key is expected: the sum is
    taken in [unsigned long] and converted to [int]. *)
Definition write_key (r : Z) : Z := Int.to_int (Int.wrap64 (r + max_key_)).

(** [int k = random() % max_key_]. *)
Definition read_key (r : Z) : Z :=
  Int.to_int (Int.wrap64 r mod max_key_).

Definition Timedout (sec_ start now : Z) : bool :=
  bool_decide (Int.wrap64 (now - start) > Int.wrap64 (sec_ * 1000)).

(** The loop shared by [RunWrite], [RunRead] and [RunErase]: the calls
    a thread makes, given the successive clock readings that [Timedout]
    takes and the successive results of [random()]. [None] when the
    readings end before the deadline has passed. *)
Fixpoint loop (body : Z -> call) (sec_ start : Z)
    (clock : list (Z * Z)) (rand : list Z) : option (list call) :=
  match clock with
  | [] => None
  | tv :: clock' =>
      if Timedout sec_ start (NowInMillSec tv) then Some []
      else match rand with
           | [] => None
           | r :: rand' => cons (body r) <$> loop body sec_ start clock' rand'
           end
  end.

Definition run_thread (body : Z -> call) (sec_ : Z)
    (clock : list (Z * Z)) (rand : list Z) : option (list call) :=
  match clock with
  | [] => None
  | tv :: clock' => loop body sec_ (NowInMillSec tv) clock' rand
  end.

Definition RunWrite := run_thread (λ r, CallInsert (write_key r) (string_fill 1000 "a"%char)).

(** The buffer [s] that [RunRead] hands to [Lookup] is a fresh, empty
    string at each iteration. *)
Definition RunRead := run_thread (λ r, CallLookup (read_key r) "").

Definition RunErase := run_thread (λ r, CallErase (write_key r)).

(** The key range that [Prepop] fills. *)
Definition prepopulated (key : Z) : Prop := 0 <= key < max_key_.

(** The calls of one thread that ran to its deadline: a writer, a reader
    or an eraser, on some clock readings and some results of [random()]. *)
Definition thread_calls (t : list call) : Prop :=
  exists sec_ clock rand,
    Forall Int.random_range rand
    /\ (RunWrite sec_ clock rand = Some t
        \/ RunRead sec_ clock rand = Some t
        \/ RunErase sec_ clock rand = Some t).

(** What the calls of the threads have in common: writers and erasers
    work outside the range of [Prepop], readers inside it. *)
Definition workload_call (c : call) : Prop :=
  match c with
  | CallInsert key val => val = val_ /\ ~ prepopulated key
  | CallErase key => ~ prepopulated key
  | CallLookup key val => val = "" /\ prepopulated key
  end.

(** The calls the running threads have made so far, in the order the map
    served them: each step takes the next call of one thread. *)
Inductive interleave : list (list call) -> list call -> Prop :=
| interleave_done threads : interleave threads []
| interleave_next threads i c rest sched :
    threads !! i = Some (c :: rest) ->
    interleave (<[i := rest]> threads) sched ->
    interleave threads (c :: sched).

Section driver.
Context {M : Type} `{HashMap Z string M}.

Record state := {
  impl_ : M;
  ninserts_ : Z;
  nreads_ : Z;
  nerases_ : Z
}.

(** The loop of [Prepop] with the counter at [i] and [n] iterations to
    go, [max_key_] of them from 0 in all; [None] when an assertion
    fails, which ends the process. *)
Fixpoint Prepop_from (n : nat) (i : Z) (impl : M) : option M :=
  match n with
  | O => Some impl
  | S n' =>
      let '(impl, status) := Insert impl (Int.to_int i) (string_fill 1000 "a"%char) in
      if status then Prepop_from n' (Int.wrap64 (i + 1)) impl else None
  end.

Definition Prepop (impl : M) : option M :=
  Prepop_from (Z.to_nat max_key_) 0 impl.

(** One iteration of a thread's loop on the shared state: the call,
    the assertion of [RunRead], the counter. *)
Definition exec (st : state) (c : call) : option state :=
  match c with
  | CallInsert key val =>
      let '(impl, _) := Insert (impl_ st) key val in
      Some {| impl_ := impl; ninserts_ := Int.wrap64 (ninserts_ st + 1);
              nreads_ := nreads_ st; nerases_ := nerases_ st |}
  | CallLookup key s =>
      let '(impl, _, status) := Lookup (impl_ st) key s in
      if status
      then Some {| impl_ := impl; ninserts_ := ninserts_ st;
                   nreads_ := Int.wrap64 (nreads_ st + 1);
                   nerases_ := nerases_ st |}
      else None
  | CallErase key =>
      let '(impl, _) := Erase (impl_ st) key in
      Some {| impl_ := impl; ninserts_ := ninserts_ st;
              nreads_ := nreads_ st;
              nerases_ := Int.wrap64 (nerases_ st + 1) |}
  end.

Fixpoint run (st : state) (sched : list call) : option state :=
  match sched with
  | [] => Some st
  | c :: sched' =>
      match exec st c with
      | Some st' => run st' sched'
      | None => None
      end
  end.

(** The constructor up to the start of the threads. *)
Definition start (impl : M) : option state :=
  (λ impl, {| impl_ := impl; ninserts_ := 0; nreads_ := 0; nerases_ := 0 |})
    <$> Prepop impl.

End driver.

(** The constructor (lines 47-65): [Prepop] first and, once it is done,
    the threads, whose calls the map serves in the order [sched]; [None]
    when an assertion fails. *)
Definition construct {M : Type} `{HashMap Z string M} (impl : M) (sched : list call)
    : option (@state M) :=
  match start impl with
  | Some st0 => run st0 sched
  | None => None
  end.

(** The end of the constructor (lines 67-71): the lines written to
    [cout], a label and a figure each, none when [sec_] is zero. The
    counters and [sec_] are [size_t], the division is theirs. *)
Definition report {M : Type} (sec_ : Z) (st : @state M) : list (string * Z) :=
  if decide (sec_ = 0) then []
  else [("insert/sec=", ninserts_ st `div` sec_);
        ("read/sec=", nreads_ st `div` sec_);
        ("erases/sec=", nerases_ st `div` sec_)].

(** The counters hold [size_t] values. *)
Definition counters_in_range {M : Type} (st : @state M) : Prop :=
  0 <= ninserts_ st < 2 ^ 64
  /\ 0 <= nreads_ st < 2 ^ 64
  /\ 0 <= nerases_ st < 2 ^ 64.

(** The keys of [Prepop] are all held by the [SimpleHashMap]. *)
Definition prepop_held (st : @state unordered_map.t) : Prop :=
  forall k, prepopulated k -> k ∈ unordered_map.keys (impl_ st).

End MicroBenchmark.

(** * Properties *)

(** ** The container *)

Section unordered_map_facts.
Import unordered_map.
Implicit Types (m : unordered_map.t) (k key : Z) (v : string).

Lemma find_le m key : (find m key ≤ length m)%nat.
Proof.
  induction m as [|[k v] m IH]; simpl; [lia|].
  destruct (decide (k = key)); lia.
Qed.

(** [find] reaches [end()] exactly on the keys that are not held. *)
Lemma find_end m key : find m key = end_ m ↔ key ∉ keys m.
Proof.
  unfold end_, keys. induction m as [|[k v] m IH]; simpl.
  - split; [intros _; apply not_elem_of_nil | done].
  - rewrite not_elem_of_cons. destruct (decide (k = key)) as [->|Hne].
    + split; [done | intros [? _]; done].
    + split.
      * intros Heq. split; [done|]. apply IH. lia.
      * intros [_ Hnot]. f_equal. by apply IH.
Qed.

(** Below [end()], [find] points at an element with the key looked for. *)
Lemma find_lookup m key :
  find m key ≠ end_ m → ∃ v, m !! find m key = Some (key, v).
Proof.
  unfold end_. induction m as [|[k v] m IH]; simpl; [done|].
  destruct (decide (k = key)) as [->|Hne]; [by eexists|].
  intros Hend. apply IH. lia.
Qed.

Lemma at_None m key : at_ m key = None ↔ key ∉ keys m.
Proof.
  unfold at_. rewrite <- find_end, fmap_None. unfold end_. split.
  - intros Hnone. apply lookup_ge_None in Hnone.
    pose proof (find_le m key). lia.
  - intros ->. by apply lookup_ge_None.
Qed.

Lemma find_app_absent m key kv :
  key ∉ keys m → find (m ++ [kv]) key = (length m + find [kv] key)%nat.
Proof.
  unfold keys. induction m as [|[k v] m IH]; [done|].
  rewrite fmap_cons, not_elem_of_cons. intros [Hne Hnot]. simpl in *.
  rewrite decide_False by done. rewrite IH by done. done.
Qed.

Lemma find_app_present m key kv :
  key ∈ keys m → find (m ++ [kv]) key = find m key.
Proof.
  unfold keys. induction m as [|[k v] m IH]; simpl.
  - intros Hin. by apply elem_of_nil in Hin.
  - destruct (decide (k = key)); [done|].
    rewrite elem_of_cons. intros [?|Hin]; [congruence|]. by rewrite IH.
Qed.

Lemma keys_erase m it : keys (erase m it) = delete it (keys m).
Proof.
  unfold keys, erase. revert it.
  induction m as [|kv m IH]; intros [|it]; simpl; try done.
  by rewrite IH.
Qed.

Lemma NoDup_delete {A} (l : list A) i : NoDup l → NoDup (delete i l).
Proof. intros Hnd. eapply sublist_NoDup; [done | apply sublist_delete]. Qed.

(** Removing the found element of a duplicate-free map removes its key. *)
Lemma erase_find_absent m key :
  NoDup (keys m) → key ∉ keys (erase m (find m key)).
Proof.
  rewrite keys_erase. unfold keys.
  induction m as [|[k v] m IH]; simpl.
  - intros _. apply not_elem_of_nil.
  - rewrite NoDup_cons. intros [Hk Hnd].
    destruct (decide (k = key)) as [->|Hne]; simpl; [done|].
    rewrite not_elem_of_cons. split; [done | by apply IH].
Qed.

End unordered_map_facts.

(** ** [SimpleHashMap] *)

Section SimpleHashMap_facts.
Import unordered_map.
Implicit Types (m : SimpleHashMap.t) (k key : Z) (v val : string).

Lemma unique_NoDup m : unique m ↔ NoDup (keys m).
Proof.
  unfold unique, keys. rewrite NoDup_alt. split.
  - intros Hu i j key Hi Hj.
    rewrite list_lookup_fmap in Hi, Hj.
    apply fmap_Some in Hi as ([k1 v1] & Hi & ->).
    apply fmap_Some in Hj as ([k2 v2] & Hj & Heq).
    simpl in Heq. subst k2. eauto.
  - intros Hnd i j key v w Hi Hj.
    apply (Hnd i j key); rewrite list_lookup_fmap; [by rewrite Hi | by rewrite Hj].
Qed.

Lemma Insert_present m key val :
  key ∈ keys m → SimpleHashMap.Insert m key val = (m, true).
Proof.
  intros Hin. unfold SimpleHashMap.Insert, insert. simpl.
  rewrite decide_False; [done|]. rewrite find_end. tauto.
Qed.

Lemma Insert_absent m key val :
  key ∉ keys m → SimpleHashMap.Insert m key val = (m ++ [(key, val)], true).
Proof.
  intros Hnot. unfold SimpleHashMap.Insert, insert. simpl.
  rewrite decide_True; [done|]. by apply find_end.
Qed.

Lemma Erase_absent m key :
  key ∉ keys m → SimpleHashMap.Erase m key = (m, false).
Proof.
  intros Hnot. unfold SimpleHashMap.Erase.
  rewrite decide_True; [done|]. by apply find_end.
Qed.

Lemma Erase_present m key :
  key ∈ keys m →
  SimpleHashMap.Erase m key = (erase m (find m key), true).
Proof.
  intros Hin. unfold SimpleHashMap.Erase.
  rewrite decide_False; [done|]. rewrite find_end. tauto.
Qed.

Lemma Lookup_status m key val :
  (SimpleHashMap.Lookup m key val).2 = true ↔ key ∈ keys m.
Proof.
  unfold SimpleHashMap.Lookup. simpl. rewrite bool_decide_eq_true, find_end.
  destruct (decide (key ∈ keys m)); tauto.
Qed.

Lemma at_append_same m key val :
  key ∉ keys m → at_ (m ++ [(key, val)]) key = Some val.
Proof.
  intros Hnot. unfold at_. rewrite find_app_absent by done. simpl.
  rewrite decide_True by done. rewrite Nat.add_0_r.
  by rewrite list_lookup_middle.
Qed.

Lemma at_append_other m key val k :
  k ≠ key → at_ (m ++ [(key, val)]) k = at_ m k.
Proof.
  intros Hne. unfold at_. destruct (decide (k ∈ keys m)) as [Hin|Hnot].
  - rewrite find_app_present by done.
    rewrite lookup_app_l; [done|].
    pose proof (find_le m k). pose proof (proj1 (find_end m k)).
    unfold end_ in *. destruct (decide (find m k = length m)); [tauto | lia].
  - rewrite find_app_absent by done. simpl.
    rewrite decide_False by done.
    apply find_end in Hnot as ->. unfold end_.
    rewrite !lookup_ge_None_2; [done | lia | rewrite length_app; simpl; lia].
Qed.

Lemma Insert_unique m key val :
  unique m → unique (SimpleHashMap.Insert m key val).1.
Proof.
  rewrite !unique_NoDup. intros Hnd.
  destruct (decide (key ∈ keys m)) as [Hin|Hnot].
  - by rewrite Insert_present.
  - rewrite Insert_absent by done. unfold keys in *. simpl.
    rewrite fmap_app. apply NoDup_app. split_and!; [done | | apply NoDup_singleton].
    intros k Hk. simpl. rewrite list_elem_of_singleton. intros ->. done.
Qed.

Lemma Erase_unique m key :
  unique m → unique (SimpleHashMap.Erase m key).1.
Proof.
  rewrite !unique_NoDup. intros Hnd.
  destruct (decide (key ∈ keys m)) as [Hin|Hnot].
  - rewrite Erase_present by done. simpl. rewrite keys_erase.
    by apply NoDup_delete.
  - by rewrite Erase_absent.
Qed.

(** On a map with at most one entry per key, a [Lookup] right after an
    [Erase] of the same key returns false. *)
Lemma Erase_then_Lookup m key val :
  unique m → (SimpleHashMap.Lookup (SimpleHashMap.Erase m key).1 key val).2 = false.
Proof.
  intros Hu%unique_NoDup. apply not_true_is_false. rewrite Lookup_status.
  destruct (decide (key ∈ keys m)) as [Hin|Hnot].
  - rewrite Erase_present by done. by apply erase_find_absent.
  - by rewrite Erase_absent.
Qed.

Lemma do_call_unique m c : unique m → unique (do_call m c).1.
Proof.
  destruct c as [key val|key|key val]; simpl.
  - apply Insert_unique.
  - apply Erase_unique.
  - done.
Qed.

End SimpleHashMap_facts.

Section SimpleHashMap_claims.
Import unordered_map.
Implicit Types (m : SimpleHashMap.t) (k key : Z) (v val : string).

(** C2. [SimpleHashMap::Insert] of a key that is held with value [v1]
    leaves the map, and so the value [v1], as it was and returns true;
    [Insert] of a key that is not held adds one entry with the given
    value, changes no other key, and returns true. *)
Theorem Insert_no_overwrite m key v :
  (∀ v1, at_ m key = Some v1 →
     SimpleHashMap.Insert m key v = (m, true)
     ∧ at_ (SimpleHashMap.Insert m key v).1 key = Some v1)
  ∧ (at_ m key = None →
     (SimpleHashMap.Insert m key v).2 = true
     ∧ at_ (SimpleHashMap.Insert m key v).1 key = Some v
     ∧ size (SimpleHashMap.Insert m key v).1 = S (size m)
     ∧ ∀ k, k ≠ key → at_ (SimpleHashMap.Insert m key v).1 k = at_ m k).
Proof.
  split.
  - intros v1 Hat.
    assert (key ∈ keys m) as Hin.
    { destruct (decide (key ∈ keys m)) as [|Hnot]; [done|].
      apply at_None in Hnot. congruence. }
    rewrite Insert_present by done. done.
  - intros Hnone. apply at_None in Hnone.
    rewrite Insert_absent by done. simpl. split_and!.
    + done.
    + by apply at_append_same.
    + unfold size. rewrite length_app. simpl. lia.
    + intros k Hne. by apply at_append_other.
Qed.

Lemma Insert_no_overwrite_witness :
  (SimpleHashMap.Insert [(5, "a")] 5 "b" = ([(5, "a")], true)
   ∧ at_ (SimpleHashMap.Insert [(5, "a")] 5 "b").1 5 = Some "a")
  ∧ (SimpleHashMap.Insert [(5, "a")] 6 "b").2 = true
  ∧ at_ (SimpleHashMap.Insert [(5, "a")] 6 "b").1 6 = Some "b".
Proof.
  split.
  - apply (proj1 (Insert_no_overwrite [(5, "a")] 5 "b") "a"). reflexivity.
  - pose proof (proj2 (Insert_no_overwrite [(5, "a")] 6 "b") eq_refl) as H.
    split; [apply H | apply H].
Defined.

(** C3. [SimpleHashMap::Erase] returns true exactly when it removed an
    entry with the key; on a key that is not held it returns false and
    leaves the map, and with it the number of entries, as it was; a
    removal lowers the number of entries by one. *)
Theorem Erase_true_iff_removed m key :
  ((SimpleHashMap.Erase m key).2 = true ↔
     ∃ i v, m !! i = Some (key, v) ∧ (SimpleHashMap.Erase m key).1 = delete i m)
  ∧ (key ∉ keys m →
     SimpleHashMap.Erase m key = (m, false)
     ∧ size (SimpleHashMap.Erase m key).1 = size m)
  ∧ ((SimpleHashMap.Erase m key).2 = true →
     S (size (SimpleHashMap.Erase m key).1) = size m).
Proof.
  destruct (decide (key ∈ keys m)) as [Hin|Hnot].
  - rewrite Erase_present by done. simpl.
    assert (find m key ≠ end_ m) as Hfind by (rewrite find_end; tauto).
    destruct (find_lookup m key Hfind) as [v Hv]. split_and!.
    + split; [intros _; by exists (find m key), v | done].
    + done.
    + intros _. unfold size, erase. rewrite length_delete by eauto.
      apply lookup_lt_Some in Hv. lia.
  - rewrite Erase_absent by done. simpl. split_and!; [|done..].
    split; [done|]. intros (i & v & Hi & _). exfalso. apply Hnot.
    unfold keys. apply list_elem_of_fmap. exists (key, v). split; [done|].
    by eapply list_elem_of_lookup_2.
Qed.

Lemma Erase_true_iff_removed_witness :
  SimpleHashMap.Erase [(5, "a")] 42 = ([(5, "a")], false)
  ∧ size (SimpleHashMap.Erase [(5, "a")] 42).1 = size [(5, "a")]
  ∧ S (size (SimpleHashMap.Erase [(5, "a"); (42, "x")] 42).1) = size [(5, "a"); (42, "x")].
Proof.
  split_and!.
  - apply (proj1 (proj2 (Erase_true_iff_removed [(5, "a")] 42))).
    vm_compute. by intros ?%list_elem_of_singleton.
  - apply (proj1 (proj2 (Erase_true_iff_removed [(5, "a")] 42))).
    vm_compute. by intros ?%list_elem_of_singleton.
  - apply (proj2 (proj2 (Erase_true_iff_removed [(5, "a"); (42, "x")] 42))).
    reflexivity.
Defined.

(** C5. On an empty [SimpleHashMap], [Erase(42)] returns false; after
    [Insert(42, "x")], [Erase(42)] returns true and a [Lookup(42)] that
    follows returns false. *)
Theorem erase_scenario val :
  let m0 := unordered_map.empty in
  let m1 := (SimpleHashMap.Insert m0 42 "x").1 in
  let m2 := (SimpleHashMap.Erase m1 42).1 in
  (SimpleHashMap.Erase m0 42).2 = false
  ∧ (SimpleHashMap.Insert m0 42 "x").2 = true
  ∧ (SimpleHashMap.Erase m1 42).2 = true
  ∧ (SimpleHashMap.Lookup m2 42 val).2 = false.
Proof. vm_compute. done. Qed.

(** C6. Key uniqueness is an invariant of [SimpleHashMap]: the empty map
    holds at most one entry per key, and a map that does still does after
    any sequence of [Insert], [Erase] and [Lookup] calls. *)
Theorem key_uniqueness_invariant :
  unique unordered_map.empty
  ∧ ∀ m (cs : list call), unique m → unique (do_calls m cs).
Proof.
  split.
  - intros i j key v w Hi. unfold empty in Hi. by rewrite lookup_nil in Hi.
  - intros m cs. revert m. induction cs as [|c cs IH]; intros m Hu; [done|].
    simpl. apply IH. by apply do_call_unique.
Qed.

Lemma key_uniqueness_invariant_witness :
  unique (do_calls unordered_map.empty
            [CallInsert 5 "a"; CallInsert 5 "b"; CallErase 7; CallInsert 7 "c"]).
Proof.
  apply (proj2 key_uniqueness_invariant).
  apply (proj1 key_uniqueness_invariant).
Defined.

End SimpleHashMap_claims.

(** ** The sharded table *)

Section ScalableHashTable_facts.
Import ScalableHashTable.
Context {T : Type} (Hash : T → Z) (Equal : T → T → bool) (slot_of : Z → nat → nat).
Hypothesis Hash_Equal : ∀ a b, Equal a b = true → Hash a = Hash b.
Implicit Types (tab : @Table T) (c : @Chain T) (e : @Entry T).

Lemma chain_find_Some h t c e :
  chain_find Equal h t c = Some e →
  e ∈ c ∧ e_hash e = h ∧ Equal t (e_elem e) = true.
Proof.
  induction c as [|e' c IH]; simpl; [done|].
  destruct (bool_decide (e_hash e' = h) && Equal t (e_elem e')) eqn:Hm.
  - intros [= <-]. apply andb_true_iff in Hm as [Hh He].
    apply bool_decide_eq_true in Hh. split_and!; [left | done..].
  - intros Hc. destruct (IH Hc) as (? & ? & ?). split_and!; [by right | done..].
Qed.

Lemma chain_find_hit h t c e :
  e ∈ c → e_hash e = h → Equal t (e_elem e) = true →
  is_Some (chain_find Equal h t c).
Proof.
  intros Hin Hh He. induction c as [|e' c IH]; simpl.
  - by apply elem_of_nil in Hin.
  - destruct (bool_decide (e_hash e' = h) && Equal t (e_elem e')) eqn:Hm; [done|].
    apply elem_of_cons in Hin as [->|Hin]; [|by apply IH].
    rewrite He, bool_decide_eq_true_2 in Hm by done. done.
Qed.

Lemma target_chain_holds tab h e :
  e ∈ target_chain slot_of tab h → holds tab (e_elem e).
Proof.
  unfold target_chain, holds.
  destruct (shards tab !! shard_of tab h) as [sh|] eqn:Hsh;
    [|by intros ?%elem_of_nil].
  destruct (slots sh !! slot_of h (length (slots sh))) as [c|] eqn:Hc; simpl;
    [|by intros ?%elem_of_nil].
  intros He. exists sh, c, e. split_and!; [ | | done..].
  - by eapply list_elem_of_lookup_2.
  - by eapply list_elem_of_lookup_2.
Qed.

Lemma Find_readonly tab t ret :
  (Find Hash Equal slot_of tab t ret).1.1 = tab.
Proof. unfold Find. by destruct (chain_find _ _ _ _). Qed.

Lemma Find_found tab t ret :
  placed Hash slot_of tab →
  (Find Hash Equal slot_of tab t ret).2 = true ↔
  ∃ x, holds tab x ∧ Equal t x = true.
Proof.
  intros Hplaced. unfold Find.
  destruct (chain_find _ _ _ _) as [e|] eqn:Hc; simpl.
  - apply chain_find_Some in Hc as (Hin & _ & He).
    split; [intros _ | done]. exists (e_elem e). split; [|done].
    by eapply target_chain_holds.
  - split; [done|]. intros (x & (sh & c & e & Hsh & Hcs & He & <-) & Heq).
    destruct (Hplaced sh c e Hsh Hcs He) as [Hh Htarget].
    assert (e_hash e = Hash t) as Hht by (rewrite Hh; symmetry; by apply Hash_Equal).
    rewrite Hht in Htarget.
    destruct (chain_find_hit (Hash t) t _ e Htarget Hht Heq) as [e' He'].
    congruence.
Qed.

End ScalableHashTable_facts.

(** ** [ScalableHashMap] *)

Section ScalableHashMap_facts.
Import ScalableHashMap.

Lemma Hash_Equal std_hash a b : Equal a b = true → Hash std_hash a = Hash std_hash b.
Proof. unfold Equal, Hash. intros ->%bool_decide_eq_true. done. Qed.

(** The sharded table meets what the adapter relies on. *)
Lemma sharded_FindContract std_hash slot_of :
  FindContract (ScalableHashTable.Find (Hash std_hash) Equal slot_of)
    (ScalableHashTable.placed (Hash std_hash) slot_of)
    ScalableHashTable.holds.
Proof.
  split.
  - intros t n ret _. apply Find_readonly.
  - intros t n ret Hwf. apply Find_found; [apply Hash_Equal | done].
Qed.

Lemma Lookup_buffer {T} (Find : T → Node → option Node → T * option Node * bool)
    impl_ key val :
  (Lookup Find impl_ key val).1.2 = val.
Proof. unfold Lookup. by destruct (Find _ _ _) as [[? ?] ?]. Qed.

Lemma Lookup_Find {T} (Find : T → Node → option Node → T * option Node * bool)
    impl_ key val :
  (Lookup Find impl_ key val).1.1
    = (Find impl_ {| key_ := key; val_ := "" |} None).1.1
  ∧ (Lookup Find impl_ key val).2
    = (Find impl_ {| key_ := key; val_ := "" |} None).2.
Proof. unfold Lookup. by destruct (Find _ _ _) as [[? ?] ?]. Qed.

End ScalableHashMap_facts.

Section Lookup_claims.
Import unordered_map.

Lemma sample_table_placed :
  ScalableHashTable.placed (ScalableHashMap.Hash sample.std_hash) sample.slot_of
    sample.table.
Proof.
  intros sh c e Hsh Hc He. unfold sample.table in Hsh. simpl in Hsh.
  repeat match goal with
  | H : _ ∈ _ :: _ |- _ => apply elem_of_cons in H as [->|H]; simpl in *
  | H : _ ∈ [] |- _ => by apply elem_of_nil in H
  end; (split; [reflexivity | vm_compute; apply list_elem_of_here]).
Qed.

(** C1, first half as stated, refuted: the map holds "stored" under key
    7, [Lookup(7, &val)] returns true, and [val], empty before the call,
    is still empty after it and not "stored". *)
Lemma Lookup_copy_counterexample :
  at_ [(7, "stored")] 7 = Some "stored"
  ∧ (SimpleHashMap.Lookup [(7, "stored")] 7 "").2 = true
  ∧ (SimpleHashMap.Lookup [(7, "stored")] 7 "").1.2 = ""
  ∧ (SimpleHashMap.Lookup [(7, "stored")] 7 "").1.2 ≠ "stored".
Proof. vm_compute. split_and!; done. Qed.

(** C1, amended. [Lookup(k, &val)] returns true exactly when an entry
    with key [k] is held and false otherwise, and [*val] after the call
    is what it was before: the stored value is not copied out. For
    [SimpleHashMap] on every map; for [ScalableHashMap] on every
    well-formed table whose [Find] reports whether an equal element is
    held. *)
Theorem Lookup_found_iff_held :
  (∀ (m : SimpleHashMap.t) key val,
     ((SimpleHashMap.Lookup m key val).2 = true ↔ ∃ i v, m !! i = Some (key, v))
     ∧ ((SimpleHashMap.Lookup m key val).2 = false ↔ key ∉ keys m)
     ∧ (SimpleHashMap.Lookup m key val).1.2 = val)
  ∧ (∀ (T : Type) Find (wf : T → Prop) holds,
       ScalableHashMap.FindContract Find wf holds →
       ∀ t key val, wf t →
         ((ScalableHashMap.Lookup Find t key val).2 = true ↔
            ∃ e, holds t e ∧ ScalableHashMap.key_ e = key)
         ∧ (ScalableHashMap.Lookup Find t key val).1.2 = val).
Proof.
  split.
  - intros m key val. split_and!.
    + rewrite Lookup_status. unfold keys. rewrite list_elem_of_fmap. split.
      * intros ([k v] & -> & Hin). apply list_elem_of_lookup_1 in Hin as [i Hi].
        by exists i, v.
      * intros (i & v & Hi). exists (key, v). split; [done|].
        by eapply list_elem_of_lookup_2.
    + rewrite <- (Lookup_status m key val).
      destruct (SimpleHashMap.Lookup m key val).2; split; congruence.
    + done.
  - intros T Find wf holds [Hro Hfound] t key val Hwf. split.
    + rewrite (proj2 (Lookup_Find Find t key val)), Hfound by done.
      unfold ScalableHashMap.Equal. simpl.
      split; intros (e & Hh & He); exists e; split; try done.
      * by apply bool_decide_eq_true in He.
      * by apply bool_decide_eq_true.
    + apply Lookup_buffer.
Qed.

Lemma Lookup_found_iff_held_witness :
  ((ScalableHashMap.Lookup sample.Find sample.table 7 "").2 = true ↔
     ∃ e, ScalableHashTable.holds sample.table e ∧ ScalableHashMap.key_ e = 7)
  ∧ (ScalableHashMap.Lookup sample.Find sample.table 7 "").1.2 = "".
Proof.
  apply (proj2 Lookup_found_iff_held _ sample.Find
           (ScalableHashTable.placed (ScalableHashMap.Hash sample.std_hash) sample.slot_of)
           ScalableHashTable.holds).
  - apply sharded_FindContract.
  - apply sample_table_placed.
Defined.

(** C10. [Lookup(k, &val)] leaves the map and [*val] as they were, the
    key found or not: [SimpleHashMap::Lookup] does not mention [val], and
    [ScalableHashMap::Lookup] hands [nullptr], not [val], to a [Find]
    that only reads the table. *)
Theorem Lookup_changes_nothing :
  (∀ (m : SimpleHashMap.t) key val, (SimpleHashMap.Lookup m key val).1 = (m, val))
  ∧ (∀ (T : Type) (Find : T → _ → _ → _) t key val,
       (ScalableHashMap.Lookup Find t key val).1.2 = val)
  ∧ (∀ (T : Type) Find (wf : T → Prop) holds,
       ScalableHashMap.FindContract Find wf holds →
       ∀ t key val, wf t → (ScalableHashMap.Lookup Find t key val).1 = (t, val)).
Proof.
  split_and!.
  - done.
  - intros. apply Lookup_buffer.
  - intros T Find wf holds [Hro _] t key val Hwf.
    pose proof (Lookup_buffer Find t key val) as Hval.
    pose proof (proj1 (Lookup_Find Find t key val)) as Htab.
    rewrite Hro in Htab by done.
    destruct (ScalableHashMap.Lookup Find t key val) as [[t' val'] b].
    simpl in *. by subst.
Qed.

Lemma Lookup_changes_nothing_witness :
  (ScalableHashMap.Lookup sample.Find sample.table 7 "caller").1
    = (sample.table, "caller").
Proof.
  apply (proj2 (proj2 Lookup_changes_nothing) _ sample.Find
           (ScalableHashTable.placed (ScalableHashMap.Hash sample.std_hash) sample.slot_of)
           ScalableHashTable.holds).
  - apply sharded_FindContract.
  - apply sample_table_placed.
Defined.

End Lookup_claims.

Section read_after_write.
Import unordered_map.
Implicit Types (m : SimpleHashMap.t) (k key : Z) (v val : string).

Lemma at_erase_other m k key :
  k ≠ key → at_ (erase m (find m k)) key = at_ m key.
Proof.
  intros Hne. unfold at_, erase.
  induction m as [|[k0 v0] m IH]; [done|]. simpl.
  destruct (decide (k0 = k)) as [->|Hk]; simpl.
  - by rewrite decide_False.
  - destruct (decide (k0 = key)); [done|]. simpl. apply IH.
Qed.

Lemma at_is_Some m key : is_Some (at_ m key) ↔ key ∈ keys m.
Proof.
  rewrite <- not_eq_None_Some, at_None.
  destruct (decide (key ∈ keys m)); tauto.
Qed.

(** A call other than [Erase(key)] keeps what is stored under [key]. *)
Lemma do_call_at m c key v :
  c ≠ CallErase key → at_ m key = Some v → at_ (do_call m c).1 key = Some v.
Proof.
  intros Hc Hat. destruct c as [k w|k|k w]; simpl.
  - destruct (decide (k ∈ keys m)) as [Hin|Hnot].
    + by rewrite Insert_present.
    + rewrite Insert_absent by done. simpl.
      rewrite at_append_other; [done|]. intros ->.
      apply at_None in Hnot. congruence.
  - destruct (decide (k ∈ keys m)) as [Hin|Hnot].
    + rewrite Erase_present by done. simpl.
      rewrite at_erase_other; [done | congruence].
    + by rewrite Erase_absent.
  - done.
Qed.

Lemma do_calls_at m cs key v :
  CallErase key ∉ cs → at_ m key = Some v → at_ (do_calls m cs) key = Some v.
Proof.
  revert m. induction cs as [|c cs IH]; intros m Hnot Hat; [done|].
  apply not_elem_of_cons in Hnot as [Hc Hnot]. simpl.
  apply IH; [done|]. apply do_call_at; [congruence | done].
Qed.

(** C4, as stated, refuted twice over. [Insert(5, "v")] on the empty
    map returns true and the [Lookup(5, &out)] that follows returns true
    with [out] still empty, not "v"; and [Insert(5, "v")] on a map that
    holds "old" under 5 returns true while "old" stays stored. *)
Lemma read_after_write_counterexample :
  ((SimpleHashMap.Insert [] 5 "v").2 = true
   ∧ (SimpleHashMap.Lookup (SimpleHashMap.Insert [] 5 "v").1 5 "").2 = true
   ∧ (SimpleHashMap.Lookup (SimpleHashMap.Insert [] 5 "v").1 5 "").1.2 ≠ "v")
  ∧ ((SimpleHashMap.Insert [(5, "old")] 5 "v").2 = true
     ∧ at_ (SimpleHashMap.Insert [(5, "old")] 5 "v").1 5 = Some "old").
Proof. vm_compute. split_and!; done. Qed.

(** C4, amended. If [Insert(k, v)] returns true (it always does) and no
    [Erase(k)] is among the calls that follow, then a later
    [Lookup(k, &out)] returns true and leaves [out] and the map as they
    were; the value stored under [k] at that point is [v] when [k] was
    not held before the [Insert], and the earlier value otherwise. *)
Theorem read_after_write_found m key v cs out :
  (SimpleHashMap.Insert m key v).2 = true →
  CallErase key ∉ cs →
  SimpleHashMap.Lookup (do_calls (SimpleHashMap.Insert m key v).1 cs) key out
    = (do_calls (SimpleHashMap.Insert m key v).1 cs, out, true)
  ∧ at_ (do_calls (SimpleHashMap.Insert m key v).1 cs) key
    = Some (default v (at_ m key)).
Proof.
  intros _ Hcs.
  assert (at_ (SimpleHashMap.Insert m key v).1 key = Some (default v (at_ m key)))
    as Hat.
  { destruct (at_ m key) as [v1|] eqn:Hm; simpl.
    - rewrite Insert_present; [done|]. apply at_is_Some. by rewrite Hm.
    - apply at_None in Hm. rewrite Insert_absent by done.
      by apply at_append_same. }
  apply (do_calls_at _ cs) in Hat; [|done]. split; [|done].
  unfold SimpleHashMap.Lookup. f_equal. apply bool_decide_eq_true.
  rewrite find_end. intros Hnot. apply at_None in Hnot. congruence.
Qed.

Lemma read_after_write_found_witness :
  SimpleHashMap.Lookup
    (do_calls (SimpleHashMap.Insert [] 5 "v").1
       [CallInsert 5 "w"; CallErase 6; CallLookup 5 ""]) 5 "out"
    = (do_calls (SimpleHashMap.Insert [] 5 "v").1
         [CallInsert 5 "w"; CallErase 6; CallLookup 5 ""], "out", true)
  ∧ at_ (do_calls (SimpleHashMap.Insert [] 5 "v").1
           [CallInsert 5 "w"; CallErase 6; CallLookup 5 ""]) 5
    = Some (default "v" (at_ [] 5)).
Proof.
  apply (read_after_write_found [] 5 "v"
           [CallInsert 5 "w"; CallErase 6; CallLookup 5 ""] "out").
  - reflexivity.
  - vm_compute. intros H. repeat (apply elem_of_cons in H as [H|H]; [discriminate H|]).
    by apply elem_of_nil in H.
Defined.

End read_after_write.

(** ** The benchmark driver *)

Section MicroBenchmark_keys.
Import MicroBenchmark.

Lemma to_int_small z : -2 ^ 31 ≤ z < 2 ^ 31 → Int.to_int z = z.
Proof. unfold Int.to_int. intros Hz. rewrite Z.mod_small; lia. Qed.

Lemma wrap64_small z : 0 ≤ z < 2 ^ 64 → Int.wrap64 z = z.
Proof. unfold Int.wrap64. intros Hz. by rewrite Z.mod_small. Qed.

(** The key of a writer or an eraser is at least [max_key_] or, when the
    conversion to [int] wraps, negative. *)
Lemma write_key_cases r :
  Int.random_range r →
  (r + max_key_ < 2 ^ 31 ∧ write_key r = r + max_key_)
  ∨ (2 ^ 31 ≤ r + max_key_ ∧ write_key r = r + max_key_ - 2 ^ 32).
Proof.
  unfold Int.random_range, write_key, max_key_. intros Hr.
  rewrite wrap64_small by lia. unfold Int.to_int.
  destruct (decide (r + 1024 * 1024 < 2 ^ 31)) as [Hlt|Hge]; [left | right].
  - split; [done|]. rewrite Z.mod_small; lia.
  - split; [lia|].
    replace (r + 1024 * 1024 + 2 ^ 31) with (r + 1024 * 1024 - 2 ^ 31 + 1 * 2 ^ 32) by lia.
    rewrite Z.mod_add by lia. rewrite Z.mod_small; lia.
Qed.

Lemma write_key_outside r : Int.random_range r → ¬ prepopulated (write_key r).
Proof.
  intros Hr. unfold prepopulated.
  destruct (write_key_cases r Hr) as [[? ->]|[? ->]];
    unfold Int.random_range, max_key_ in *; lia.
Qed.

Lemma read_key_inside r : Int.random_range r → prepopulated (read_key r).
Proof.
  unfold Int.random_range, read_key, prepopulated, max_key_. intros Hr.
  rewrite wrap64_small by lia.
  pose proof (Z.mod_pos_bound r (1024 * 1024)).
  rewrite to_int_small; lia.
Qed.

End MicroBenchmark_keys.

Section MicroBenchmark_Prepop.
Import unordered_map MicroBenchmark.

(** [Prepop] on any map: the insertions of 0, 1, ... in order, given up
    at the first that does not return true. *)
Lemma Prepop_from_calls {M : Type} `{HashMap Z string M} n i (impl : M) :
  0 ≤ i → i + Z.of_nat n ≤ 2 ^ 31 →
  Prepop_from n i impl =
    let cs := (λ j, CallInsert j val_) <$> seqZ i (Z.of_nat n) in
    if forallb id (returns impl cs) then Some (do_calls impl cs) else None.
Proof.
  revert i impl. induction n as [|n IH]; intros i impl Hi Hn; [done|].
  rewrite Nat2Z.inj_succ, seqZ_cons by lia.
  rewrite Z.pred_succ. cbn [Prepop_from fmap list_fmap returns forallb do_calls foldl].
  rewrite to_int_small by lia. change (do_call impl (CallInsert i val_)) with (Insert impl i val_).
  change (string_fill 1000 "a") with val_.
  destruct (Insert impl i val_) as [impl' status]. cbn [fst snd id].
  destruct status; [|done]. cbn [andb].
  rewrite wrap64_small by lia. rewrite IH by lia. done.
Qed.

Lemma returns_simple_inserts (m : SimpleHashMap.t) (ks : list Z) v :
  forallb id (returns m ((λ j, CallInsert j v) <$> ks)) = true.
Proof.
  revert m. induction ks as [|k ks IH]; intros m; [done|].
  cbn [fmap list_fmap returns forallb]. rewrite IH. simpl.
  unfold SimpleHashMap.Insert. by destruct (insert m (k, v)).
Qed.

Lemma do_calls_simple_inserts (m : SimpleHashMap.t) i n v :
  (∀ k, k ∈ keys m → k < i) →
  do_calls m ((λ j, CallInsert j v) <$> seqZ i (Z.of_nat n))
    = m ++ ((λ j, (j, v)) <$> seqZ i (Z.of_nat n)).
Proof.
  revert i m. induction n as [|n IH]; intros i m Hm.
  - simpl. by rewrite app_nil_r.
  - rewrite Nat2Z.inj_succ, seqZ_cons by lia. rewrite Z.pred_succ.
    cbn [fmap list_fmap do_calls foldl do_call].
    change (Insert m i v) with (SimpleHashMap.Insert m i v).
    rewrite Insert_absent by (intros Hin; apply Hm in Hin; lia).
    cbn [fst]. unfold do_calls in IH. rewrite IH.
    + by rewrite <- app_assoc.
    + intros k. unfold keys. rewrite fmap_app, elem_of_app. simpl.
      rewrite list_elem_of_singleton. intros [Hin| ->]; [apply Hm in Hin|]; lia.
Qed.

(** [Prepop] on the empty [SimpleHashMap] passes every assertion and
    leaves the keys 0, 1, ..., [max_key_ - 1], each with the value. *)
Lemma Prepop_simple :
  Prepop (M := SimpleHashMap.t) unordered_map.empty
    = Some ((λ j, (j, val_)) <$> seqZ 0 max_key_).
Proof.
  unfold Prepop. rewrite Prepop_from_calls by (unfold max_key_; lia).
  cbv zeta. rewrite returns_simple_inserts.
  rewrite do_calls_simple_inserts.
  - by rewrite Z2Nat.id by (unfold max_key_; lia).
  - intros k Hk. by apply elem_of_nil in Hk.
Qed.

Lemma Prepop_simple_keys k :
  k ∈ keys ((λ j, (j, val_)) <$> seqZ 0 max_key_) ↔ prepopulated k.
Proof.
  unfold keys, prepopulated. rewrite <- list_fmap_compose.
  rewrite list_elem_of_fmap. setoid_rewrite elem_of_seqZ. simpl. split.
  - intros (j & -> & Hj). lia.
  - intros Hk. exists k. split; [done | lia].
Qed.

End MicroBenchmark_Prepop.

Section MicroBenchmark_threads.
Import unordered_map MicroBenchmark.
Implicit Types (body : Z → call) (clock pre post : list (Z * Z)) (rand : list Z).

(** The loop makes one call per clock reading that is within the
    duration and ends at the first reading that is past it. *)
Lemma loop_until body sec_ start0 pre tv post rand :
  Forall (λ tv', Timedout sec_ start0 (NowInMillSec tv') = false) pre →
  Timedout sec_ start0 (NowInMillSec tv) = true →
  (length pre ≤ length rand)%nat →
  loop body sec_ start0 (pre ++ tv :: post) rand
    = Some (body <$> take (length pre) rand).
Proof.
  intros Hpre Htv. revert rand.
  induction Hpre as [|tv' pre Htv' _ IH]; intros rand Hlen; simpl.
  - by rewrite Htv.
  - rewrite Htv'. destruct rand as [|r rand]; simpl in *; [lia|].
    rewrite IH by lia. done.
Qed.

Lemma loop_Some body sec_ start0 clock rand t :
  loop body sec_ start0 clock rand = Some t →
  ∃ pre tv post,
    clock = pre ++ tv :: post
    ∧ Forall (λ tv', Timedout sec_ start0 (NowInMillSec tv') = false) pre
    ∧ Timedout sec_ start0 (NowInMillSec tv) = true
    ∧ (length pre ≤ length rand)%nat
    ∧ t = body <$> take (length pre) rand.
Proof.
  revert rand t. induction clock as [|tv clock IH]; intros rand t; simpl; [done|].
  destruct (Timedout sec_ start0 (NowInMillSec tv)) eqn:Htv.
  - intros [= <-]. exists [], tv, clock. split_and!; simpl; [done.. | lia | done].
  - destruct rand as [|r rand]; [done|]. intros Ht.
    apply fmap_Some in Ht as (t' & Ht' & ->).
    destruct (IH _ _ Ht') as (pre & tv1 & post & -> & Hpre & Htv1 & Hlen & ->).
    exists (tv :: pre), tv1, post. split_and!; simpl; [done | by constructor | done | lia | done].
Qed.

(** Every call of a thread is its body at one of the results of
    [random()]. *)
Lemma run_thread_calls body sec_ clock rand t :
  run_thread body sec_ clock rand = Some t →
  Forall (λ c, ∃ r, r ∈ rand ∧ c = body r) t.
Proof.
  unfold run_thread. destruct clock as [|tv0 clock]; [done|]. intros Ht.
  apply loop_Some in Ht as (pre & _ & _ & _ & _ & _ & _ & ->).
  apply Forall_fmap, Forall_forall. intros r Hr. simpl. exists r. split; [|done].
  by eapply subseteq_take.
Qed.

Lemma thread_calls_workload t : thread_calls t → Forall workload_call t.
Proof.
  intros (sec_ & clock & rand & Hrand & Ht).
  rewrite Forall_forall in Hrand.
  destruct Ht as [Ht|[Ht|Ht]]; apply run_thread_calls in Ht;
    (eapply Forall_impl; [exact Ht|]); intros c (r & Hr & ->); simpl.
  - split; [done|]. apply write_key_outside. auto.
  - split; [done|]. apply read_key_inside. auto.
  - apply write_key_outside. auto.
Qed.

Lemma interleave_Forall (P : call → Prop) threads sched :
  interleave threads sched → Forall (Forall P) threads → Forall P sched.
Proof.
  induction 1 as [|threads i c rest sched Hi _ IH]; intros Hall; [done|].
  pose proof (Forall_lookup_1 _ _ _ _ Hall Hi) as Hc.
  apply Forall_cons in Hc as [Hc Hrest]. constructor; [done|].
  apply IH. by apply Forall_insert.
Qed.

End MicroBenchmark_threads.

Section reader_assertion.
Import unordered_map MicroBenchmark.

Lemma keys_erase_other (m : SimpleHashMap.t) k key :
  k ≠ key → k ∈ keys m → k ∈ keys (erase m (find m key)).
Proof.
  intros Hne. rewrite <- !at_is_Some. by rewrite at_erase_other.
Qed.

(** A call of the workload passes the reader's assertion and keeps the
    keys of [Prepop] held. *)
Lemma exec_prepop_held st c :
  workload_call c → prepop_held st →
  ∃ st', exec st c = Some st' ∧ prepop_held st'.
Proof.
  intros Hc Hinv. destruct st as [m ni nr ne]. unfold prepop_held in *.
  destruct c as [key val|key|key val]; simpl in *.
  - change (Insert m key val) with (SimpleHashMap.Insert m key val).
    destruct (decide (key ∈ keys m)) as [Hin|Hnot].
    + rewrite Insert_present by done. eexists. split; [done|]. done.
    + rewrite Insert_absent by done. eexists. split; [done|]. simpl.
      intros k Hk. unfold keys. rewrite fmap_app, elem_of_app. left. by apply Hinv.
  - change (Erase m key) with (SimpleHashMap.Erase m key).
    destruct (decide (key ∈ keys m)) as [Hin|Hnot].
    + rewrite Erase_present by done. eexists. split; [done|]. simpl.
      intros k Hk. apply keys_erase_other; [|by apply Hinv].
      intros ->. done.
    + rewrite Erase_absent by done. eexists. split; [done|]. done.
  - destruct Hc as [_ Hkey].
    rewrite bool_decide_eq_true_2; [by eexists|].
    rewrite find_end. intros Hnot. apply Hnot. by apply Hinv.
Qed.

Lemma run_prepop_held st sched :
  Forall workload_call sched → prepop_held st →
  ∃ st', run st sched = Some st' ∧ prepop_held st'.
Proof.
  intros Hsched. revert st.
  induction Hsched as [|c sched Hc _ IH]; intros st Hinv; simpl; [by eexists|].
  destruct (exec_prepop_held st c Hc Hinv) as (st' & -> & Hinv').
  by apply IH.
Qed.

(** C9. The assertion of the reader loop holds throughout a run on a
    [SimpleHashMap]. The key of a writer or an eraser is never in the
    range of [Prepop], whether the conversion to [int] wraps or not; so
    from the state that [Prepop] leaves, whatever threads run and in
    whatever order the map serves their calls, each call goes through,
    every [Lookup] of a reader returning true. *)
Theorem reader_assert_holds :
  (∀ r, Int.random_range r → ¬ prepopulated (write_key r))
  ∧ ∃ st0,
      start (M := SimpleHashMap.t) unordered_map.empty = Some st0
      ∧ ∀ threads sched,
          Forall thread_calls threads → interleave threads sched →
          is_Some (run st0 sched).
Proof.
  split; [apply write_key_outside|].
  unfold start. rewrite Prepop_simple.
  exists {| impl_ := (λ j, (j, val_)) <$> seqZ 0 max_key_;
            ninserts_ := 0; nreads_ := 0; nerases_ := 0 |}.
  split; [reflexivity|].
  intros threads sched Hthreads Hsched.
  assert (Forall workload_call sched) as Hall.
  { eapply interleave_Forall; [done|].
    eapply Forall_impl; [done|]. apply thread_calls_workload. }
  edestruct run_prepop_held as (st' & -> & _); [done | | done].
  intros k Hk. cbn [impl_]. by apply Prepop_simple_keys.
Qed.

Lemma reader_assert_holds_witness :
  ¬ prepopulated (write_key (2 ^ 31 - 1))
  ∧ ∃ st0,
      start (M := SimpleHashMap.t) unordered_map.empty = Some st0
      ∧ is_Some (run st0 [CallLookup (read_key 7) "";
                          CallErase (write_key (2 ^ 31 - 1));
                          CallInsert (write_key 5) (string_fill 1000 "a");
                          CallLookup (read_key (2 ^ 31 - 1)) ""]).
Proof.
  split.
  - apply (proj1 reader_assert_holds). vm_compute. split; congruence.
  - destruct (proj2 reader_assert_holds) as (st0 & Hstart & Hrun).
    exists st0. split; [exact Hstart|].
    apply (Hrun [ [CallInsert (write_key 5) (string_fill 1000 "a")];
                  [CallLookup (read_key 7) ""; CallLookup (read_key (2 ^ 31 - 1)) ""];
                  [CallErase (write_key (2 ^ 31 - 1))] ]).
    + repeat apply Forall_cons_2; [| | | apply Forall_nil_2].
      * exists 1, [(100, 0); (100, 250000); (101, 1000)], [5].
        split; [repeat constructor; vm_compute; congruence|].
        left. vm_compute. reflexivity.
      * exists 1, [(100, 0); (100, 250000); (101, 0); (101, 1000)], [7; 2 ^ 31 - 1].
        split; [repeat constructor; vm_compute; congruence|].
        right; left. vm_compute. reflexivity.
      * exists 1, [(100, 0); (100, 250000); (101, 1000)], [2 ^ 31 - 1].
        split; [repeat constructor; vm_compute; congruence|].
        right; right. vm_compute. reflexivity.
    + apply (interleave_next _ 1%nat _ [CallLookup (read_key (2 ^ 31 - 1)) ""]); [reflexivity|].
      apply (interleave_next _ 2%nat _ []); [reflexivity|].
      apply (interleave_next _ 0%nat _ []); [reflexivity|].
      apply (interleave_next _ 1%nat _ []); [reflexivity|].
      apply interleave_done.
Defined.

End reader_assertion.

Section MicroBenchmark_claims.
Import unordered_map MicroBenchmark.

Lemma Prepop_as_calls {M : Type} `{HashMap Z string M} (impl : M) :
  Prepop impl =
    if forallb id (returns impl ((λ j, CallInsert j val_) <$> seqZ 0 max_key_))
    then Some (do_calls impl ((λ j, CallInsert j val_) <$> seqZ 0 max_key_))
    else None.
Proof.
  unfold Prepop. rewrite Prepop_from_calls by (unfold max_key_; lia).
  by rewrite Z2Nat.id by (unfold max_key_; lia).
Qed.

Lemma do_calls_app {M : Type} `{HashMap Z string M} (m : M) cs1 cs2 :
  do_calls m (cs1 ++ cs2) = do_calls (do_calls m cs1) cs2.
Proof. unfold do_calls. apply foldl_app. Qed.

Lemma exec_impl {M : Type} `{HashMap Z string M} (st st' : @state M) c :
  exec st c = Some st' → impl_ st' = (do_call (impl_ st) c).1.
Proof.
  destruct c as [key val|key|key val]; simpl.
  - destruct (Insert (impl_ st) key val) as [impl' b]. by intros [= <-].
  - destruct (Erase (impl_ st) key) as [impl' b]. by intros [= <-].
  - destruct (Lookup (impl_ st) key val) as [[impl' s] b].
    destruct b; [|done]. by intros [= <-].
Qed.

Lemma run_impl {M : Type} `{HashMap Z string M} sched : ∀ (st st' : @state M),
  run st sched = Some st' → impl_ st' = do_calls (impl_ st) sched.
Proof.
  induction sched as [|c sched IH]; intros st st'; simpl.
  - by intros [= <-].
  - destruct (exec st c) as [st1|] eqn:Hexec; [|done]. intros Hrun.
    rewrite (IH _ _ Hrun). by rewrite (exec_impl _ _ _ Hexec).
Qed.

Lemma construct_after_Prepop {M : Type} `{HashMap Z string M} (impl impl0 : M) sched st :
  Prepop impl = Some impl0 → construct impl sched = Some st →
  impl_ st = do_calls impl0 sched.
Proof.
  unfold construct, start. intros ->. cbn [fmap option_fmap option_map].
  intros Hrun%run_impl. exact Hrun.
Qed.

Lemma construct_Prepop_fails {M : Type} `{HashMap Z string M} (impl : M) sched :
  Prepop impl = None → construct impl sched = None.
Proof. unfold construct, start. by intros ->. Qed.

Lemma construct_order_calls {M : Type} `{HashMap Z string M} (impl : M) pc sched st :
  Prepop impl = (if forallb id (returns impl pc) then Some (do_calls impl pc) else None) →
  construct impl sched = Some st →
  forallb id (returns impl pc) = true
  ∧ impl_ st = do_calls impl (pc ++ sched).
Proof.
  intros HP Hst. destruct (forallb id (returns impl pc)).
  - split; [reflexivity|]. rewrite do_calls_app.
    exact (construct_after_Prepop impl _ sched st HP Hst).
  - rewrite (construct_Prepop_fails impl sched HP) in Hst. discriminate Hst.
Qed.

(** The constructor makes the calls of [Prepop] before any call of a
    thread. *)
Lemma construct_order {M : Type} `{HashMap Z string M} (impl : M) sched st :
  construct impl sched = Some st →
  forallb id (returns impl ((λ j, CallInsert j val_) <$> seqZ 0 max_key_)) = true
  ∧ impl_ st = do_calls impl (((λ j, CallInsert j val_) <$> seqZ 0 max_key_) ++ sched).
Proof. exact (construct_order_calls impl _ sched st (Prepop_as_calls impl)). Qed.

Lemma NowInMillSec_range tv : 0 ≤ NowInMillSec tv < 2 ^ 64.
Proof. unfold NowInMillSec, Int.wrap64. apply Z.mod_pos_bound. lia. Qed.

(** With a clock that has not gone back, [Timedout] compares the time
    that has passed with the configured duration. *)
Lemma Timedout_duration sec_ start0 now :
  0 ≤ start0 ≤ now → now < 2 ^ 64 → 0 ≤ sec_ → sec_ * 1000 < 2 ^ 64 →
  Timedout sec_ start0 now = bool_decide (now - start0 > sec_ * 1000).
Proof.
  intros Hs Hn Hsec Hms. unfold Timedout. by rewrite !wrap64_small by lia.
Qed.

(** A thread makes one call per clock reading that is within the
    configured duration of its start, each on the next result of
    [random()], and returns at the first reading that is past it. *)
Lemma run_thread_duration body sec_ tv0 pre tv post rand :
  0 ≤ sec_ → sec_ * 1000 < 2 ^ 64 →
  Forall (λ tv', NowInMillSec tv0 ≤ NowInMillSec tv'
                 ∧ NowInMillSec tv' - NowInMillSec tv0 ≤ sec_ * 1000) pre →
  NowInMillSec tv - NowInMillSec tv0 > sec_ * 1000 →
  (length pre ≤ length rand)%nat →
  run_thread body sec_ (tv0 :: pre ++ tv :: post) rand
    = Some (body <$> take (length pre) rand).
Proof.
  intros Hsec Hms Hpre Htv Hlen. simpl.
  pose proof (NowInMillSec_range tv0) as H0.
  apply loop_until; [| |done].
  - eapply Forall_impl; [exact Hpre|]. intros tv' [Hle Hin]. simpl.
    pose proof (NowInMillSec_range tv').
    rewrite Timedout_duration by lia. apply bool_decide_eq_false. lia.
  - pose proof (NowInMillSec_range tv).
    rewrite Timedout_duration by lia. apply bool_decide_eq_true. lia.
Qed.

(** C7. The constructor first runs [Prepop], which inserts the keys 0,
    1, ..., [max_key_ - 1] in this order and asserts that each [Insert]
    returns true (on the empty [SimpleHashMap] each does), and only
    afterwards the threads: the map it leaves is the one that the
    insertions of [Prepop] followed by the calls of the threads make.
    A key drawn by a writer or an eraser is outside the range of
    [Prepop], a key drawn by a reader inside it. A writer makes one
    [Insert] of such a key, a reader one [Lookup], an eraser one
    [Erase], per clock reading at most [sec_ * 1000] milliseconds after
    its start, and returns at the first reading that is later than
    that; whatever the clock does, a thread calls once per reading at
    which [Timedout] is false and returns at the first at which it is
    true. *)
Theorem benchmark_workload :
  (∀ (M : Type) (HM : HashMap Z string M) (impl : M),
     Prepop impl =
       if forallb id (returns impl ((λ j, CallInsert j val_) <$> seqZ 0 max_key_))
       then Some (do_calls impl ((λ j, CallInsert j val_) <$> seqZ 0 max_key_))
       else None)
  ∧ Prepop (M := SimpleHashMap.t) unordered_map.empty
      = Some ((λ j, (j, val_)) <$> seqZ 0 max_key_)
  ∧ (∀ (M : Type) (HM : HashMap Z string M) (impl : M) sched st,
       construct impl sched = Some st →
       forallb id (returns impl ((λ j, CallInsert j val_) <$> seqZ 0 max_key_)) = true
       ∧ impl_ st
         = do_calls impl (((λ j, CallInsert j val_) <$> seqZ 0 max_key_) ++ sched))
  ∧ (∀ threads sched,
       Forall thread_calls threads → interleave threads sched →
       ∃ st, construct (M := SimpleHashMap.t) unordered_map.empty sched = Some st
             ∧ impl_ st
               = do_calls unordered_map.empty
                   (((λ j, CallInsert j val_) <$> seqZ 0 max_key_) ++ sched))
  ∧ (∀ r, Int.random_range r →
       ¬ prepopulated (write_key r) ∧ prepopulated (read_key r))
  ∧ (∀ sec_ tv0 pre tv post rand,
       0 ≤ sec_ → sec_ * 1000 < 2 ^ 64 →
       Forall (λ tv', NowInMillSec tv0 ≤ NowInMillSec tv'
                      ∧ NowInMillSec tv' - NowInMillSec tv0 ≤ sec_ * 1000) pre →
       NowInMillSec tv - NowInMillSec tv0 > sec_ * 1000 →
       (length pre ≤ length rand)%nat →
       RunWrite sec_ (tv0 :: pre ++ tv :: post) rand
         = Some ((λ r, CallInsert (write_key r) val_) <$> take (length pre) rand)
       ∧ RunRead sec_ (tv0 :: pre ++ tv :: post) rand
         = Some ((λ r, CallLookup (read_key r) "") <$> take (length pre) rand)
       ∧ RunErase sec_ (tv0 :: pre ++ tv :: post) rand
         = Some ((λ r, CallErase (write_key r)) <$> take (length pre) rand))
  ∧ (∀ sec_ clock rand t,
       Forall Int.random_range rand →
       (RunWrite sec_ clock rand = Some t →
          Forall (λ c, ∃ key, c = CallInsert key val_ ∧ ¬ prepopulated key) t)
       ∧ (RunRead sec_ clock rand = Some t →
          Forall (λ c, ∃ key, c = CallLookup key "" ∧ prepopulated key) t)
       ∧ (RunErase sec_ clock rand = Some t →
          Forall (λ c, ∃ key, c = CallErase key ∧ ¬ prepopulated key) t))
  ∧ (∀ body sec_ tv0 pre tv post rand,
       Forall (λ tv', Timedout sec_ (NowInMillSec tv0) (NowInMillSec tv') = false) pre →
       Timedout sec_ (NowInMillSec tv0) (NowInMillSec tv) = true →
       (length pre ≤ length rand)%nat →
       run_thread body sec_ (tv0 :: pre ++ tv :: post) rand
         = Some (body <$> take (length pre) rand)).
Proof.
  split_and!.
  - intros M HM impl. apply Prepop_as_calls.
  - apply Prepop_simple.
  - intros M HM impl sched st. apply construct_order.
  - intros threads sched Hthreads Hsched.
    assert (Forall workload_call sched) as Hall.
    { eapply interleave_Forall; [done|].
      eapply Forall_impl; [done|]. apply thread_calls_workload. }
    destruct (run_prepop_held
                {| impl_ := (λ j, (j, val_)) <$> seqZ 0 max_key_;
                   ninserts_ := 0; nreads_ := 0; nerases_ := 0 |} sched Hall)
      as (st & Hrun & _).
    { intros k Hk. cbn [impl_]. by apply Prepop_simple_keys. }
    assert (construct (M := SimpleHashMap.t) unordered_map.empty sched = Some st)
      as Hst by (unfold construct, start; rewrite Prepop_simple; exact Hrun).
    exists st. split; [done|]. by apply construct_order.
  - intros r Hr. split; [by apply write_key_outside | by apply read_key_inside].
  - intros sec_ tv0 pre tv post rand Hsec Hms Hpre Htv Hlen.
    split_and!; by apply run_thread_duration.
  - intros sec_ clock rand t Hrand. rewrite Forall_forall in Hrand.
    split_and!; intros Ht; apply run_thread_calls in Ht;
      (eapply Forall_impl; [exact Ht|]); intros c (r & Hr & ->); simpl.
    + exists (write_key r). split; [done|]. apply write_key_outside. auto.
    + exists (read_key r). split; [done|]. apply read_key_inside. auto.
    + exists (write_key r). split; [done|]. apply write_key_outside. auto.
  - intros body sec_ tv0 pre tv post rand Hpre Htv Hlen. simpl.
    by apply loop_until.
Qed.

Lemma benchmark_workload_witness :
  (∃ st, construct (M := SimpleHashMap.t) unordered_map.empty
           [CallLookup (read_key 7) ""; CallErase (write_key (2 ^ 31 - 1));
            CallInsert (write_key 5) val_] = Some st
         ∧ forallb id (returns unordered_map.empty
                         ((λ j, CallInsert j val_) <$> seqZ 0 max_key_)) = true
         ∧ impl_ st
           = do_calls unordered_map.empty
               (((λ j, CallInsert j val_) <$> seqZ 0 max_key_)
                ++ [CallLookup (read_key 7) ""; CallErase (write_key (2 ^ 31 - 1));
                    CallInsert (write_key 5) val_]))
  ∧ (¬ prepopulated (write_key (2 ^ 31 - 1)) ∧ prepopulated (read_key (2 ^ 31 - 1)))
  ∧ (RunWrite 2 ((100, 0) :: [(100, 250000); (101, 500000)] ++ (102, 1000) :: [(200, 0)])
       [7; 2 ^ 31 - 1; 9]
     = Some [CallInsert (write_key 7) val_; CallInsert (write_key (2 ^ 31 - 1)) val_]
     ∧ RunRead 2 ((100, 0) :: [(100, 250000); (101, 500000)] ++ (102, 1000) :: [(200, 0)])
         [7; 2 ^ 31 - 1; 9]
       = Some [CallLookup (read_key 7) ""; CallLookup (read_key (2 ^ 31 - 1)) ""]
     ∧ RunErase 2 ((100, 0) :: [(100, 250000); (101, 500000)] ++ (102, 1000) :: [(200, 0)])
         [7; 2 ^ 31 - 1; 9]
       = Some [CallErase (write_key 7); CallErase (write_key (2 ^ 31 - 1))])
  ∧ Forall (λ c, ∃ key, c = CallErase key ∧ ¬ prepopulated key)
      [CallErase (write_key 5); CallErase (write_key (2 ^ 31 - 1))].
Proof.
  destruct benchmark_workload as (_ & _ & Horder & Hrun & Hkeys & Hloop & Hcalls & _).
  split; [|split; [|split]].
  - destruct (Hrun [ [CallInsert (write_key 5) val_];
                     [CallLookup (read_key 7) ""];
                     [CallErase (write_key (2 ^ 31 - 1))] ]
                   [CallLookup (read_key 7) ""; CallErase (write_key (2 ^ 31 - 1));
                    CallInsert (write_key 5) val_]) as (st & Hst & _).
    + repeat apply Forall_cons_2; [| | | apply Forall_nil_2].
      * exists 1, [(100, 0); (100, 250000); (101, 1000)], [5].
        split; [repeat constructor; vm_compute; congruence|].
        left. vm_compute. reflexivity.
      * exists 1, [(100, 0); (100, 250000); (101, 1000)], [7].
        split; [repeat constructor; vm_compute; congruence|].
        right; left. vm_compute. reflexivity.
      * exists 1, [(100, 0); (100, 250000); (101, 1000)], [2 ^ 31 - 1].
        split; [repeat constructor; vm_compute; congruence|].
        right; right. vm_compute. reflexivity.
    + apply (interleave_next _ 1%nat _ []); [reflexivity|].
      apply (interleave_next _ 2%nat _ []); [reflexivity|].
      apply (interleave_next _ 0%nat _ []); [reflexivity|].
      apply interleave_done.
    + exists st. split; [exact Hst|]. exact (Horder _ _ _ _ _ Hst).
  - apply Hkeys. vm_compute. split; congruence.
  - apply (Hloop 2 (100, 0) [(100, 250000); (101, 500000)] (102, 1000) [(200, 0)]
             [7; 2 ^ 31 - 1; 9]).
    + lia.
    + lia.
    + repeat constructor; vm_compute; congruence.
    + vm_compute. reflexivity.
    + simpl. lia.
  - apply (proj2 (proj2 (Hcalls 1 [(100, 0); (100, 250000); (101, 0); (101, 1000)]
                           [5; 2 ^ 31 - 1]
                           [CallErase (write_key 5); CallErase (write_key (2 ^ 31 - 1))]
                           ltac:(repeat constructor; vm_compute; congruence)))).
    vm_compute. reflexivity.
Defined.

End MicroBenchmark_claims.

(** * Further properties *)

(** ** [SimpleHashMap]: how the calls compose *)

Section SimpleHashMap_composition.
Import unordered_map.
Implicit Types (m : SimpleHashMap.t) (k key : Z) (v val : string) (c : call).

Lemma at_Some m key v : at_ m key = Some v → (key, v) ∈ m.
Proof.
  unfold at_. intros Hat. apply fmap_Some in Hat as ([k w] & Hlk & ->).
  destruct (decide (find m key = end_ m)) as [Hend|Hin].
  - apply lookup_lt_Some in Hlk. unfold end_ in Hend. lia.
  - destruct (find_lookup m key Hin) as [v' Hv'].
    rewrite Hv' in Hlk. injection Hlk as <- <-.
    by eapply list_elem_of_lookup_2.
Qed.

Lemma at_Insert m k v key :
  at_ (SimpleHashMap.Insert m k v).1 key
    = if decide (k = key) then Some (default v (at_ m key)) else at_ m key.
Proof.
  destruct (decide (k ∈ keys m)) as [Hin|Hnot].
  - rewrite Insert_present by done. simpl. case_decide as Hk; [subst|done].
    apply at_is_Some in Hin as [w Hw]. by rewrite Hw.
  - rewrite Insert_absent by done. simpl. case_decide as Hk.
    + subst. rewrite at_append_same by done.
      apply at_None in Hnot. by rewrite Hnot.
    + by apply at_append_other.
Qed.

Lemma at_Erase_same m key :
  unique m → at_ (SimpleHashMap.Erase m key).1 key = None.
Proof.
  intros Hu%unique_NoDup. apply at_None.
  destruct (decide (key ∈ keys m)) as [Hin|Hnot].
  - rewrite Erase_present by done. by apply erase_find_absent.
  - by rewrite Erase_absent.
Qed.

Lemma at_Erase_other m k key :
  k ≠ key → at_ (SimpleHashMap.Erase m k).1 key = at_ m key.
Proof.
  intros Hne. destruct (decide (k ∈ keys m)) as [Hin|Hnot].
  - rewrite Erase_present by done. by apply at_erase_other.
  - by rewrite Erase_absent.
Qed.

Lemma Lookup_flag m key val :
  (SimpleHashMap.Lookup m key val).2 = bool_decide (is_Some (at_ m key)).
Proof.
  apply eq_true_iff_eq. rewrite Lookup_status, bool_decide_eq_true.
  by rewrite at_is_Some.
Qed.

Lemma Erase_flag m key :
  (SimpleHashMap.Erase m key).2 = bool_decide (is_Some (at_ m key)).
Proof.
  destruct (decide (key ∈ keys m)) as [Hin|Hnot].
  - rewrite Erase_present by done. symmetry. apply bool_decide_eq_true.
    by apply at_is_Some.
  - rewrite Erase_absent by done. symmetry. apply bool_decide_eq_false.
    by rewrite at_is_Some.
Qed.

Lemma Insert_flag m key v : (SimpleHashMap.Insert m key v).2 = true.
Proof. unfold SimpleHashMap.Insert. by destruct (insert m (key, v)). Qed.

(** A call leaves what is stored under the other keys. *)
Lemma do_call_at_other m c key :
  key_of c ≠ key → at_ (do_call m c).1 key = at_ m key.
Proof.
  destruct c as [k v|k|k v]; simpl; intros Hne.
  - change (Insert m k v) with (SimpleHashMap.Insert m k v).
    rewrite at_Insert. by rewrite decide_False.
  - by apply at_Erase_other.
  - done.
Qed.

(** What a call stores under its own key, and the flag it returns,
    depend on the map only through what was stored under that key. *)
Lemma do_call_at_same m m' c :
  unique m → unique m' →
  at_ m (key_of c) = at_ m' (key_of c) →
  at_ (do_call m c).1 (key_of c) = at_ (do_call m' c).1 (key_of c)
  ∧ (do_call m c).2 = (do_call m' c).2.
Proof.
  intros Hu Hu' Hat. destruct c as [k v|k|k v]; simpl in *.
  - change (Insert m k v) with (SimpleHashMap.Insert m k v).
    change (Insert m' k v) with (SimpleHashMap.Insert m' k v).
    rewrite !at_Insert, !Insert_flag, Hat. done.
  - change (Erase m k) with (SimpleHashMap.Erase m k).
    change (Erase m' k) with (SimpleHashMap.Erase m' k).
    rewrite !at_Erase_same, !Erase_flag, Hat by done. done.
  - split; [done|].
    pose proof (Lookup_flag m k v) as H1. pose proof (Lookup_flag m' k v) as H2.
    simpl in H1, H2. by rewrite H1, H2, Hat.
Qed.

End SimpleHashMap_composition.

Section SimpleHashMap_extras.
Import unordered_map.
Implicit Types (m : SimpleHashMap.t) (k key : Z) (v val : string) (c : call).

(** X1. On a map with at most one entry per key, [Erase(k)] leaves
    nothing under [k]: the [Lookup(k)] that follows returns false and a
    second [Erase(k)] returns false and changes nothing. *)
Theorem Erase_then_absent m key val :
  unique m →
  at_ (SimpleHashMap.Erase m key).1 key = None
  ∧ SimpleHashMap.Lookup (SimpleHashMap.Erase m key).1 key val
      = ((SimpleHashMap.Erase m key).1, val, false)
  ∧ SimpleHashMap.Erase (SimpleHashMap.Erase m key).1 key
      = ((SimpleHashMap.Erase m key).1, false).
Proof.
  intros Hu. pose proof (at_Erase_same m key Hu) as Hnone.
  split_and!; [done | |].
  - unfold SimpleHashMap.Lookup. f_equal. apply bool_decide_eq_false.
    rewrite find_end. intros Hn. apply Hn. by apply at_None.
  - apply Erase_absent. by apply at_None.
Qed.

Lemma Erase_then_absent_witness :
  at_ (SimpleHashMap.Erase [(5, "a"); (42, "x")] 42).1 42 = None
  ∧ SimpleHashMap.Lookup (SimpleHashMap.Erase [(5, "a"); (42, "x")] 42).1 42 "buf"
      = ((SimpleHashMap.Erase [(5, "a"); (42, "x")] 42).1, "buf", false)
  ∧ SimpleHashMap.Erase (SimpleHashMap.Erase [(5, "a"); (42, "x")] 42).1 42
      = ((SimpleHashMap.Erase [(5, "a"); (42, "x")] 42).1, false).
Proof.
  apply (Erase_then_absent [(5, "a"); (42, "x")] 42 "buf").
  apply unique_NoDup, (bool_decide_unpack _). vm_compute. exact I.
Defined.

(** X2. [Erase(k)] leaves every other key as it was: the value stored
    under it and the answer of [Lookup] are unchanged. *)
Theorem Erase_keeps_other_keys m k key val :
  k ≠ key →
  at_ (SimpleHashMap.Erase m k).1 key = at_ m key
  ∧ (SimpleHashMap.Lookup (SimpleHashMap.Erase m k).1 key val).2
      = (SimpleHashMap.Lookup m key val).2.
Proof.
  intros Hne. pose proof (at_Erase_other m k key Hne) as Hat.
  split; [done|]. by rewrite !Lookup_flag, Hat.
Qed.

Lemma Erase_keeps_other_keys_witness :
  at_ (SimpleHashMap.Erase [(5, "a"); (42, "x")] 5).1 42 = at_ [(5, "a"); (42, "x")] 42
  ∧ (SimpleHashMap.Lookup (SimpleHashMap.Erase [(5, "a"); (42, "x")] 5).1 42 "").2
      = (SimpleHashMap.Lookup [(5, "a"); (42, "x")] 42 "").2.
Proof. apply (Erase_keeps_other_keys [(5, "a"); (42, "x")] 5 42 ""). lia. Defined.

(** X3. Of two [Insert]s of the same key in a row the first decides:
    the second returns true and changes nothing, and the value stored is
    the one that was there before both or else the first one's. *)
Theorem Insert_twice_first_wins m key v1 v2 :
  SimpleHashMap.Insert (SimpleHashMap.Insert m key v1).1 key v2
    = ((SimpleHashMap.Insert m key v1).1, true)
  ∧ at_ (SimpleHashMap.Insert (SimpleHashMap.Insert m key v1).1 key v2).1 key
    = Some (default v1 (at_ m key)).
Proof.
  assert (at_ (SimpleHashMap.Insert m key v1).1 key = Some (default v1 (at_ m key)))
    as Hat by (rewrite at_Insert; by rewrite decide_True).
  assert (key ∈ keys (SimpleHashMap.Insert m key v1).1) as Hin
    by (apply at_is_Some; by rewrite Hat).
  rewrite (Insert_present _ key v2 Hin). done.
Qed.

(** X4. To replace a value, erase first: on a map with at most one
    entry per key, [Erase(k)] followed by [Insert(k, v)] stores [v]
    under [k] and leaves every other key as it was. *)
Theorem Erase_then_Insert_replaces m key v :
  unique m →
  at_ (SimpleHashMap.Insert (SimpleHashMap.Erase m key).1 key v).1 key = Some v
  ∧ ∀ k, k ≠ key →
      at_ (SimpleHashMap.Insert (SimpleHashMap.Erase m key).1 key v).1 k = at_ m k.
Proof.
  intros Hu. split.
  - rewrite at_Insert, decide_True by done. by rewrite at_Erase_same.
  - intros k Hne. rewrite at_Insert, decide_False by done.
    by apply at_Erase_other.
Qed.

Lemma Erase_then_Insert_replaces_witness :
  at_ (SimpleHashMap.Insert (SimpleHashMap.Erase [(5, "a"); (42, "x")] 5).1 5 "b").1 5
    = Some "b"
  ∧ ∀ k, k ≠ 5 →
      at_ (SimpleHashMap.Insert (SimpleHashMap.Erase [(5, "a"); (42, "x")] 5).1 5 "b").1 k
        = at_ [(5, "a"); (42, "x")] k.
Proof.
  apply (Erase_then_Insert_replaces [(5, "a"); (42, "x")] 5 "b").
  apply unique_NoDup, (bool_decide_unpack _). vm_compute. exact I.
Defined.

(** X5. Calls on different keys can be served in either order: on a map
    with at most one entry per key, both orders leave the same value
    under every key and each call returns the same flag in both. *)
Theorem calls_on_distinct_keys_commute m c1 c2 :
  unique m → key_of c1 ≠ key_of c2 →
  (∀ key, at_ (do_calls m [c1; c2]) key = at_ (do_calls m [c2; c1]) key)
  ∧ returns m [c1; c2] = [(do_call m c1).2; (do_call m c2).2]
  ∧ returns m [c2; c1] = [(do_call m c2).2; (do_call m c1).2].
Proof.
  intros Hu Hne.
  pose proof (do_call_unique m c1 Hu) as Hu1.
  pose proof (do_call_unique m c2 Hu) as Hu2.
  assert (at_ m (key_of c1) = at_ (do_call m c2).1 (key_of c1)) as H1
    by (symmetry; apply do_call_at_other; congruence).
  assert (at_ m (key_of c2) = at_ (do_call m c1).1 (key_of c2)) as H2
    by (symmetry; by apply do_call_at_other).
  destruct (do_call_at_same m (do_call m c2).1 c1 Hu Hu2 H1) as [Hs1 Hf1].
  destruct (do_call_at_same m (do_call m c1).1 c2 Hu Hu1 H2) as [Hs2 Hf2].
  split_and!.
  - intros key. cbn [do_calls foldl].
    destruct (decide (key_of c1 = key)) as [<-|Hk1].
    + rewrite <- Hs1. apply do_call_at_other. congruence.
    + destruct (decide (key_of c2 = key)) as [<-|Hk2].
      * rewrite <- Hs2. symmetry. by apply do_call_at_other.
      * by rewrite !do_call_at_other.
  - cbn [returns]. by rewrite <- Hf2.
  - cbn [returns]. by rewrite <- Hf1.
Qed.

Lemma calls_on_distinct_keys_commute_witness :
  (∀ key, at_ (do_calls [(5, "a")] [CallErase 5; CallInsert 7 "b"]) key
          = at_ (do_calls [(5, "a")] [CallInsert 7 "b"; CallErase 5]) key)
  ∧ returns [(5, "a")] [CallErase 5; CallInsert 7 "b"]
    = [(do_call [(5, "a")] (CallErase 5)).2; (do_call [(5, "a")] (CallInsert 7 "b")).2]
  ∧ returns [(5, "a")] [CallInsert 7 "b"; CallErase 5]
    = [(do_call [(5, "a")] (CallInsert 7 "b")).2; (do_call [(5, "a")] (CallErase 5)).2].
Proof.
  apply (calls_on_distinct_keys_commute [(5, "a")] (CallErase 5) (CallInsert 7 "b")).
  - apply unique_NoDup, (bool_decide_unpack _). vm_compute. exact I.
  - simpl. lia.
Defined.

End SimpleHashMap_extras.

(** ** [ScalableHashMap]: the functors handed to the table *)

Section ScalableHashMap_functors.
Import ScalableHashMap.

(** X6. [Equal] compares the keys only and is an equivalence on nodes;
    nodes that are [Equal] have the same [Hash]; so the probe that
    [Lookup] and [Erase] build from a key and an empty value is [Equal]
    to a node with that key whatever its value, and hashes like it. *)
Theorem Equal_Hash_laws std_hash :
  (∀ a b, Equal a b = true ↔ key_ a = key_ b)
  ∧ (∀ a, Equal a a = true)
  ∧ (∀ a b, Equal a b = Equal b a)
  ∧ (∀ a b c, Equal a b = true → Equal b c = true → Equal a c = true)
  ∧ (∀ a b, Equal a b = true → Hash std_hash a = Hash std_hash b)
  ∧ (∀ key val,
       Equal {| key_ := key; val_ := "" |} {| key_ := key; val_ := val |} = true
       ∧ Hash std_hash {| key_ := key; val_ := "" |}
         = Hash std_hash {| key_ := key; val_ := val |}).
Proof.
  assert (∀ a b, Equal a b = true ↔ key_ a = key_ b) as Heq
    by (intros a b; unfold Equal; apply bool_decide_eq_true).
  split_and!.
  - done.
  - intros a. by apply Heq.
  - intros a b. apply eq_true_iff_eq. rewrite !Heq. split; congruence.
  - intros a b c. rewrite !Heq. congruence.
  - apply Hash_Equal.
  - intros key val. split; [by apply Heq | done].
Qed.

Lemma Equal_Hash_laws_witness :
  Equal {| key_ := 7; val_ := "" |} {| key_ := 7; val_ := "stored" |} = true
  ∧ Hash sample.std_hash {| key_ := 7; val_ := "" |}
    = Hash sample.std_hash {| key_ := 7; val_ := "stored" |}.
Proof.
  split.
  - apply (proj1 (Equal_Hash_laws sample.std_hash)). reflexivity.
  - apply (proj1 (proj2 (proj2 (proj2 (proj2 (Equal_Hash_laws sample.std_hash)))))).
    reflexivity.
Defined.

End ScalableHashMap_functors.

(** ** The clock of the benchmark *)

Section MicroBenchmark_clock.
Import MicroBenchmark.

Lemma quot_1000_bounds u : 0 ≤ u < 1000000 → 0 ≤ Z.quot u 1000 < 1000.
Proof.
  intros Hu. rewrite Z.quot_div_nonneg by lia. split.
  - apply Z.div_pos; lia.
  - apply Z.div_lt_upper_bound; lia.
Qed.

(** X7. On a [timeval] with seconds from 0 and microseconds below a
    million, [NowInMillSec] is the time in milliseconds, exactly, as long
    as that fits a [long]; and a later [timeval] gives no smaller
    reading. *)
Theorem NowInMillSec_monotone s1 u1 s2 u2 :
  0 ≤ s1 → 0 ≤ u1 < 1000000 → 0 ≤ u2 < 1000000 →
  s2 * 1000 + 999 < 2 ^ 63 →
  s1 < s2 ∨ (s1 = s2 ∧ u1 ≤ u2) →
  NowInMillSec (s1, u1) = s1 * 1000 + u1 `div` 1000
  ∧ NowInMillSec (s2, u2) = s2 * 1000 + u2 `div` 1000
  ∧ NowInMillSec (s1, u1) ≤ NowInMillSec (s2, u2).
Proof.
  intros Hs1 Hu1 Hu2 Hs2 Hle.
  pose proof (quot_1000_bounds u1 Hu1) as Hq1.
  pose proof (quot_1000_bounds u2 Hu2) as Hq2.
  unfold NowInMillSec. simpl.
  rewrite !wrap64_small by lia.
  rewrite <- !Z.quot_div_nonneg by lia. split_and!; [done..|].
  destruct Hle as [Hlt|[-> Hle]]; [lia|].
  assert (Z.quot u1 1000 ≤ Z.quot u2 1000) by (apply Z.quot_le_mono; lia). lia.
Qed.

Lemma NowInMillSec_monotone_witness :
  NowInMillSec (100, 999999) = 100 * 1000 + 999999 `div` 1000
  ∧ NowInMillSec (101, 0) = 101 * 1000 + 0 `div` 1000
  ∧ NowInMillSec (100, 999999) ≤ NowInMillSec (101, 0).
Proof. apply (NowInMillSec_monotone 100 999999 101 0); lia. Defined.

(** X8. With a clock that has not gone back since the start and a
    duration whose milliseconds fit 64 bits, [Timedout] holds exactly
    when more than [sec_ * 1000] milliseconds have passed; so with
    [sec_] zero the loop goes on while the clock still shows the
    starting millisecond. *)
Theorem Timedout_elapsed sec_ start0 now :
  0 ≤ start0 ≤ now → now < 2 ^ 64 → 0 ≤ sec_ → sec_ * 1000 < 2 ^ 64 →
  (Timedout sec_ start0 now = true ↔ now - start0 > sec_ * 1000)
  ∧ (sec_ = 0 → (Timedout sec_ start0 now = false ↔ now = start0)).
Proof.
  intros Hs Hn Hsec Hms. unfold Timedout.
  rewrite bool_decide_eq_true, !wrap64_small by lia. split; [done|].
  intros ->. rewrite bool_decide_eq_false. lia.
Qed.

Lemma Timedout_elapsed_witness :
  (Timedout 1 100000 101001 = true ↔ 101001 - 100000 > 1 * 1000)
  ∧ (1 = 0 → (Timedout 1 100000 101001 = false ↔ 101001 = 100000)).
Proof. apply (Timedout_elapsed 1 100000 101001); lia. Defined.

(** X9. When the clock reads earlier than the start, the unsigned
    difference wraps to a large number and [Timedout] holds, provided
    the duration in milliseconds is less than 2^64 minus the step back:
    a clock set back ends the loop at once. *)
Theorem Timedout_clock_set_back sec_ start0 now :
  0 ≤ now < start0 → start0 < 2 ^ 64 →
  0 ≤ sec_ → sec_ * 1000 + (start0 - now) < 2 ^ 64 →
  Timedout sec_ start0 now = true.
Proof.
  intros Hn Hs Hsec Hms. unfold Timedout, Int.wrap64.
  rewrite bool_decide_eq_true.
  replace (now - start0) with (now - start0 + 2 ^ 64 + (-1) * 2 ^ 64) by lia.
  rewrite Z.mod_add by lia. rewrite !Z.mod_small by lia. lia.
Qed.

Lemma Timedout_clock_set_back_witness : Timedout 10 100000 99999 = true.
Proof. apply (Timedout_clock_set_back 10 100000 99999); lia. Defined.

End MicroBenchmark_clock.

(** ** The counters and the report *)

Section MicroBenchmark_counters.
Import MicroBenchmark.
Context {M : Type} `{HashMap Z string M}.
Implicit Types (st : @state M) (c : call) (sched : list call).

Lemma wrap64_range z : 0 ≤ Int.wrap64 z < 2 ^ 64.
Proof. unfold Int.wrap64. apply Z.mod_pos_bound. lia. Qed.

Lemma wrap64_add_l a b : Int.wrap64 (Int.wrap64 a + b) = Int.wrap64 (a + b).
Proof. unfold Int.wrap64. apply Zplus_mod_idemp_l. Qed.

Lemma exec_counters st c st' :
  counters_in_range st → exec st c = Some st' →
  counters_in_range st'
  ∧ impl_ st' = (do_call (impl_ st) c).1
  ∧ ninserts_ st' = Int.wrap64 (ninserts_ st + (if is_insert c then 1 else 0))
  ∧ nreads_ st' = Int.wrap64 (nreads_ st + (if is_lookup c then 1 else 0))
  ∧ nerases_ st' = Int.wrap64 (nerases_ st + (if is_erase c then 1 else 0)).
Proof.
  intros (Hi & Hr & He). unfold counters_in_range.
  destruct c as [key val|key|key val]; simpl.
  - destruct (Insert (impl_ st) key val) as [impl' b]. intros [= <-]. simpl.
    rewrite !Z.add_0_r, (wrap64_small (nreads_ st)), (wrap64_small (nerases_ st)) by done.
    pose proof (wrap64_range (ninserts_ st + 1)). done.
  - destruct (Erase (impl_ st) key) as [impl' b]. intros [= <-]. simpl.
    rewrite !Z.add_0_r, (wrap64_small (ninserts_ st)), (wrap64_small (nreads_ st)) by done.
    pose proof (wrap64_range (nerases_ st + 1)). done.
  - destruct (Lookup (impl_ st) key val) as [[impl' s] b].
    destruct b; [|done]. intros [= <-]. simpl.
    rewrite !Z.add_0_r, (wrap64_small (ninserts_ st)), (wrap64_small (nerases_ st)) by done.
    pose proof (wrap64_range (nreads_ st + 1)). done.
Qed.

Lemma run_counters sched : ∀ st st',
  counters_in_range st → run st sched = Some st' →
  counters_in_range st'
  ∧ impl_ st' = do_calls (impl_ st) sched
  ∧ ninserts_ st' = Int.wrap64 (ninserts_ st + count_calls is_insert sched)
  ∧ nreads_ st' = Int.wrap64 (nreads_ st + count_calls is_lookup sched)
  ∧ nerases_ st' = Int.wrap64 (nerases_ st + count_calls is_erase sched).
Proof.
  induction sched as [|c sched IH]; intros st st' Hrange; simpl.
  - intros [= <-]. destruct Hrange as (? & ? & ?).
    rewrite !Z.add_0_r, !wrap64_small by done. done.
  - destruct (exec st c) as [st1|] eqn:Hexec; [|done]. intros Hrun.
    destruct (exec_counters st c st1 Hrange Hexec) as (Hr1 & Himpl & Hi & Hr & He).
    destruct (IH st1 st' Hr1 Hrun) as (Hr' & Himpl' & Hi' & Hr'' & He').
    split_and!; [done | by rewrite Himpl', Himpl | | |].
    + rewrite Hi', Hi, wrap64_add_l. f_equal. lia.
    + rewrite Hr'', Hr, wrap64_add_l. f_equal. lia.
    + rewrite He', He, wrap64_add_l. f_equal. lia.
Qed.

End MicroBenchmark_counters.

Section MicroBenchmark_extras.
Import unordered_map MicroBenchmark.

(** X10. Whatever the map, a run that no assertion ends leaves the map
    as the calls in their order of service make it and each counter
    advanced, modulo 2^64, by the number of calls of its kind; the
    report divides these by [sec_], and writes nothing when [sec_] is
    zero. *)
Theorem counters_count_calls (M : Type) (HM : HashMap Z string M)
    (st st' : @state M) sched sec_ :
  counters_in_range st → run st sched = Some st' →
  impl_ st' = do_calls (impl_ st) sched
  ∧ ninserts_ st' = Int.wrap64 (ninserts_ st + count_calls is_insert sched)
  ∧ nreads_ st' = Int.wrap64 (nreads_ st + count_calls is_lookup sched)
  ∧ nerases_ st' = Int.wrap64 (nerases_ st + count_calls is_erase sched)
  ∧ report sec_ st' =
      if decide (sec_ = 0) then []
      else [("insert/sec=",
             Int.wrap64 (ninserts_ st + count_calls is_insert sched) `div` sec_);
            ("read/sec=",
             Int.wrap64 (nreads_ st + count_calls is_lookup sched) `div` sec_);
            ("erases/sec=",
             Int.wrap64 (nerases_ st + count_calls is_erase sched) `div` sec_)].
Proof.
  intros Hrange Hrun.
  destruct (run_counters sched st st' Hrange Hrun) as (_ & Himpl & Hi & Hr & He).
  split_and!; [done..|]. unfold report. by rewrite Hi, Hr, He.
Qed.

Lemma counters_count_calls_witness :
  [(1, "a"); (2, "b")]
    = do_calls [(1, "a")]
        [CallInsert 2 "b"; CallLookup 1 ""; CallErase 9; CallInsert 1 "c"; CallLookup 2 ""]
  ∧ 2 = Int.wrap64 (0 + count_calls is_insert
        [CallInsert 2 "b"; CallLookup 1 ""; CallErase 9; CallInsert 1 "c"; CallLookup 2 ""])
  ∧ 2 = Int.wrap64 (0 + count_calls is_lookup
        [CallInsert 2 "b"; CallLookup 1 ""; CallErase 9; CallInsert 1 "c"; CallLookup 2 ""])
  ∧ 1 = Int.wrap64 (0 + count_calls is_erase
        [CallInsert 2 "b"; CallLookup 1 ""; CallErase 9; CallInsert 1 "c"; CallLookup 2 ""])
  ∧ report 1 {| impl_ := [(1, "a"); (2, "b")];
                ninserts_ := 2; nreads_ := 2; nerases_ := 1 |}
    = [("insert/sec=", 2); ("read/sec=", 2); ("erases/sec=", 1)].
Proof.
  apply (counters_count_calls _ _
           {| impl_ := [(1, "a")]; ninserts_ := 0; nreads_ := 0; nerases_ := 0 |}
           {| impl_ := [(1, "a"); (2, "b")]; ninserts_ := 2; nreads_ := 2; nerases_ := 1 |}
           [CallInsert 2 "b"; CallLookup 1 ""; CallErase 9; CallInsert 1 "c"; CallLookup 2 ""]
           1).
  - unfold counters_in_range. simpl. lia.
  - vm_compute. reflexivity.
Defined.

Lemma at_prepop k :
  prepopulated k → at_ ((λ j, (j, val_)) <$> seqZ 0 max_key_) k = Some val_.
Proof.
  intros Hk. apply Prepop_simple_keys, at_is_Some in Hk as [w Hw].
  rewrite Hw. f_equal. apply at_Some, list_elem_of_fmap in Hw as (j & Hj & _).
  congruence.
Qed.

(** A call of the workload passes the reader's assertion and leaves the
    keys of [Prepop] with their value. *)
Lemma exec_prepop_valued (st : @state SimpleHashMap.t) c :
  workload_call c →
  (∀ k, prepopulated k → at_ (impl_ st) k = Some val_) →
  ∃ st', exec st c = Some st'
         ∧ ∀ k, prepopulated k → at_ (impl_ st') k = Some val_.
Proof.
  intros Hc Hinv. destruct st as [m ni nr ne]. simpl in Hinv.
  destruct c as [key val|key|key val]; simpl in *.
  - change (Insert m key val) with (SimpleHashMap.Insert m key val).
    destruct (SimpleHashMap.Insert m key val) as [m' b] eqn:Hins.
    eexists. split; [done|]. simpl. intros k Hk.
    change m' with (m', b).1. rewrite <- Hins, at_Insert.
    case_decide; [|by apply Hinv]. subst. by destruct Hc.
  - change (Erase m key) with (SimpleHashMap.Erase m key).
    destruct (SimpleHashMap.Erase m key) as [m' b] eqn:Hers.
    eexists. split; [done|]. simpl. intros k Hk.
    change m' with (m', b).1. rewrite <- Hers, at_Erase_other; [by apply Hinv|].
    intros ->. done.
  - destruct Hc as [_ Hkey].
    rewrite bool_decide_eq_true_2; [by eexists|].
    rewrite find_end. intros Hnot. apply Hnot.
    apply at_is_Some. by rewrite Hinv.
Qed.

Lemma run_prepop_valued (st : @state SimpleHashMap.t) sched :
  Forall workload_call sched →
  (∀ k, prepopulated k → at_ (impl_ st) k = Some val_) →
  ∃ st', run st sched = Some st'
         ∧ ∀ k, prepopulated k → at_ (impl_ st') k = Some val_.
Proof.
  intros Hsched. revert st.
  induction Hsched as [|c sched Hc _ IH]; intros st Hinv; simpl; [by eexists|].
  destruct (exec_prepop_valued st c Hc Hinv) as (st' & -> & Hinv').
  by apply IH.
Qed.

(** X11. On a [SimpleHashMap] the running threads never disturb what
    [Prepop] stored: from the state [Prepop] leaves, whatever threads
    run and in whatever order their calls are served, every key of the
    range is still held with the value [Prepop] gave it. *)
Theorem prepopulated_entries_stay :
  ∃ st0,
    start (M := SimpleHashMap.t) unordered_map.empty = Some st0
    ∧ ∀ threads sched,
        Forall thread_calls threads → interleave threads sched →
        ∃ st, run st0 sched = Some st
              ∧ ∀ k, prepopulated k → at_ (impl_ st) k = Some val_.
Proof.
  unfold start. rewrite Prepop_simple.
  exists {| impl_ := (λ j, (j, val_)) <$> seqZ 0 max_key_;
            ninserts_ := 0; nreads_ := 0; nerases_ := 0 |}.
  split; [reflexivity|].
  intros threads sched Hthreads Hsched.
  apply run_prepop_valued.
  - eapply interleave_Forall; [done|].
    eapply Forall_impl; [done|]. apply thread_calls_workload.
  - intros k Hk. cbn [impl_]. by apply at_prepop.
Qed.

Lemma prepopulated_entries_stay_witness :
  ∃ st0,
    start (M := SimpleHashMap.t) unordered_map.empty = Some st0
    ∧ ∃ st, run st0 [CallErase (write_key 5);
                     CallInsert (write_key 5) (string_fill 1000 "a")] = Some st
            ∧ ∀ k, prepopulated k → at_ (impl_ st) k = Some val_.
Proof.
  destruct prepopulated_entries_stay as (st0 & Hstart & Hrun).
  exists st0. split; [exact Hstart|].
  apply (Hrun [ [CallInsert (write_key 5) (string_fill 1000 "a")];
                [CallErase (write_key 5)] ]).
  - repeat apply Forall_cons_2; [| | apply Forall_nil_2].
    + exists 1, [(100, 0); (100, 250000); (101, 1000)], [5].
      split; [repeat constructor; vm_compute; congruence|].
      left. vm_compute. reflexivity.
    + exists 1, [(100, 0); (100, 250000); (101, 1000)], [5].
      split; [repeat constructor; vm_compute; congruence|].
      right; right. vm_compute. reflexivity.
  - apply (interleave_next _ 1%nat _ []); [reflexivity|].
    apply (interleave_next _ 0%nat _ []); [reflexivity|].
    apply interleave_done.
Defined.

End MicroBenchmark_extras.

Section MicroBenchmark_keys_extras.
Import unordered_map MicroBenchmark.

(** X12. The keys the threads draw. A reader's key is [random()] modulo
    [max_key_], and every key of the range of [Prepop] is the key of some
    result of [random()]; a writer's or eraser's key determines the
    result of [random()] it came from, so two of them coincide only when
    [random()] repeats. *)
Theorem thread_keys :
  (∀ r, Int.random_range r → read_key r = r mod max_key_)
  ∧ (∀ k, prepopulated k → ∃ r, Int.random_range r ∧ read_key r = k)
  ∧ (∀ r1 r2, Int.random_range r1 → Int.random_range r2 →
       write_key r1 = write_key r2 → r1 = r2).
Proof.
  assert (∀ r, Int.random_range r → read_key r = r mod max_key_) as Hread.
  { unfold Int.random_range, read_key, max_key_. intros r Hr.
    rewrite wrap64_small by lia.
    pose proof (Z.mod_pos_bound r (1024 * 1024)).
    rewrite to_int_small; lia. }
  split_and!.
  - done.
  - intros k Hk. unfold prepopulated, max_key_ in Hk. exists k.
    assert (Int.random_range k) as Hr by (unfold Int.random_range; lia).
    split; [done|]. rewrite Hread by done. apply Z.mod_small. done.
  - intros r1 r2 H1 H2 Heq.
    destruct (write_key_cases r1 H1) as [[? E1]|[? E1]];
      destruct (write_key_cases r2 H2) as [[? E2]|[? E2]];
      rewrite E1, E2 in Heq; unfold Int.random_range, max_key_ in *; lia.
Qed.

Lemma thread_keys_witness :
  read_key (2 ^ 31 - 1) = (2 ^ 31 - 1) mod max_key_
  ∧ (∃ r, Int.random_range r ∧ read_key r = max_key_ - 1)
  ∧ (write_key 5 = write_key 5 → 5 = 5).
Proof.
  split_and!.
  - apply (proj1 thread_keys). vm_compute. split; congruence.
  - apply (proj1 (proj2 thread_keys)). vm_compute. split; congruence.
  - apply (proj2 (proj2 thread_keys)); vm_compute; split; congruence.
Defined.

Lemma at_do_inserts (m : SimpleHashMap.t) ks v key :
  at_ (do_calls m ((λ j, CallInsert j v) <$> ks)) key
    = match at_ m key with
      | Some w => Some w
      | None => if decide (key ∈ ks) then Some v else None
      end.
Proof.
  revert m. induction ks as [|k ks IH]; intros m.
  - simpl. by destruct (at_ m key).
  - cbn [fmap list_fmap do_calls foldl do_call]. unfold do_calls in IH. rewrite IH.
    change (Insert m k v) with (SimpleHashMap.Insert m k v). rewrite at_Insert.
    destruct (decide (k = key)) as [->|Hne].
    + destruct (at_ m key); simpl; [done|]. rewrite decide_True; [done | left].
    + destruct (at_ m key); [done|].
      destruct (decide (key ∈ ks)) as [Hin|Hnot].
      * rewrite decide_True; [done | by right].
      * rewrite decide_False; [done|]. rewrite not_elem_of_cons. split; [congruence | done].
Qed.

(** X13. On a [SimpleHashMap] the assertions of [Prepop] cannot fail,
    whatever the map already holds: [Prepop] keeps every entry that is
    there, with its value, gives the value of [Prepop] to the keys of
    the range that were not held, and adds nothing outside the range. *)
Theorem Prepop_on_any_map (m : SimpleHashMap.t) :
  ∃ m', Prepop m = Some m'
    ∧ (∀ k v, at_ m k = Some v → at_ m' k = Some v)
    ∧ (∀ k, prepopulated k → at_ m k = None → at_ m' k = Some val_)
    ∧ (∀ k, ¬ prepopulated k → at_ m' k = at_ m k).
Proof.
  exists (do_calls m ((λ j, CallInsert j val_) <$> seqZ 0 max_key_)).
  split.
  - unfold Prepop. rewrite Prepop_from_calls by (unfold max_key_; lia).
    cbv zeta. rewrite returns_simple_inserts.
    by rewrite Z2Nat.id by (unfold max_key_; lia).
  - split_and!.
    + intros k v Hat. by rewrite at_do_inserts, Hat.
    + intros k Hk Hat. rewrite at_do_inserts, Hat.
      rewrite decide_True; [done|]. apply elem_of_seqZ. unfold prepopulated in Hk. lia.
    + intros k Hk. rewrite at_do_inserts. destruct (at_ m k); [done|].
      rewrite decide_False; [done|]. rewrite elem_of_seqZ. unfold prepopulated in Hk. lia.
Qed.

Lemma Prepop_on_any_map_witness :
  ∃ m', Prepop [(7, "old"); (-3, "neg")] = Some m'
    ∧ at_ m' 7 = Some "old"
    ∧ at_ m' 8 = Some val_
    ∧ at_ m' (-4) = at_ [(7, "old"); (-3, "neg")] (-4).
Proof.
  destruct (Prepop_on_any_map [(7, "old"); (-3, "neg")]) as (m' & Hm' & Hkeep & Hfill & Hout).
  exists m'. split_and!.
  - exact Hm'.
  - apply Hkeep. reflexivity.
  - apply Hfill; [vm_compute; split; congruence | reflexivity].
  - apply Hout. vm_compute. intros [H1 _]. by apply H1.
Defined.

End MicroBenchmark_keys_extras.
